(** * StepperMotor (src/index.ts): a shallow embedding

    The driver is a TypeScript class over two external libraries:
    node-libgpiod ([Chip], [Line]) and async ([eachSeries], [waterfall],
    [each]).  Every method is embedded as a state transformer that can
    complete normally or throw; the state is the object [this] together
    with the log of the effects performed so far (GPIO calls that went
    through, timers that were armed).

    Numbers are modelled as [Z]: the fractional and non-finite values of
    a JavaScript number are outside the model.  [%] is the truncating
    remainder, [Z.rem]. *)

From Stdlib Require Import ZArith List String Bool Lia.
Import ListNotations.
Open Scope string_scope.
Open Scope list_scope.
Open Scope Z_scope.

(** ** Values, exceptions, effects *)

(** What an array read can produce: a number, or [undefined] when the
    index is outside the array. *)
Inductive JsVal : Type :=
| VNum (z : Z)
| VUndefined.

Inductive Error : Type :=
| GpioError (msg : string)    (* thrown by a node-libgpiod call *)
| TypeError (msg : string)    (* property read on undefined *)
| RangeError (msg : string).  (* invalid array length *)

Record Chip : Type := mkChip { chip_name : string }.

Record Line : Type := mkLine { line_chip : Chip; line_pin : Z }.

Inductive Effect : Type :=
| NewChip (name : string)
| NewLine (c : Chip) (pin : Z)
| RequestOutputMode (l : Line) (v : Z) (consumer : string)
| SetValue (l : Line) (v : JsVal)
| Release (l : Line)
| SetTimeout (ms : Z).

(** The GPIO library is an external collaborator.  Its calls return
    nothing, so the only way one can fail is by throwing; whether a call
    throws is decided by the provider from the effects performed so far
    and the call attempted. *)
Definition Provider : Type := list Effect -> Effect -> option Error.

Inductive Completion (A : Type) : Type :=
| Normal (a : A)
| Throw (e : Error).
Arguments Normal {A} a.
Arguments Throw {A} e.

Definition JS (S A : Type) : Type := S -> Completion A * S.

Definition ret {S A} (a : A) : JS S A := fun s => (Normal a, s).

Definition bind {S A B} (m : JS S A) (k : A -> JS S B) : JS S B :=
  fun s =>
    match m s with
    | (Normal a, s') => k a s'
    | (Throw e, s') => (Throw e, s')
    end.

Notation "x <- m ;; k" := (bind m (fun x => k))
  (at level 61, m at next level, right associativity).
Notation "m ;; k" := (bind m (fun _ => k))
  (at level 61, right associativity).

(** [for (const x of xs) body(x)]: in order, a throw ends the loop. *)
Fixpoint forEach {S A} (xs : list A) (body : A -> JS S unit) : JS S unit :=
  match xs with
  | [] => ret tt
  | x :: rest => body x ;; forEach rest body
  end.

(** [xs.map(f)] where [f] may throw. *)
Fixpoint mapM {S A B} (f : A -> JS S B) (xs : list A) : JS S (list B) :=
  match xs with
  | [] => ret []
  | x :: rest => y <- f x ;; ys <- mapM f rest ;; ret (y :: ys)
  end.

(** [async.each(coll, iteratee, cb)] on an array is async's
    [eachOfArrayLike]: a plain [for] loop calling the iteratee on each
    element, with no [try] around the call.  Both iteratees of the source
    report completion with no error argument, so the only abnormal exit
    is a throw, which leaves the loop and unwinds into the caller. *)
Definition async_each {S A} (coll : list A) (iteratee : A -> JS S unit)
  : JS S unit := forEach coll iteratee.

(** How a promise returned by the driver ends.  [new Promise(executor)]
    turns a throw out of the executor's own call stack into a rejection.
    A throw out of a timer callback has no promise on its stack: it is an
    uncaught exception and the promise is left pending for ever. *)
Inductive Outcome (A : Type) : Type :=
| Resolved (a : A)
| Rejected (e : Error)
| Uncaught (e : Error).
Arguments Resolved {A} a.
Arguments Rejected {A} e.
Arguments Uncaught {A} e.

Inductive Frame : Type := Executor | TimerCallback.

Definition unwind {A} (fr : Frame) (e : Error) : Outcome A :=
  match fr with
  | Executor => Rejected e
  | TimerCallback => Uncaught e
  end.

(** [async.eachSeries(Array.from({length: n}), iteratee, final)] where the
    iteratee hands its callback to [setTimeout] (as the waterfall of
    [move] does): the first run of the iteratee happens in the frame
    [eachSeries] was called from, every later run, and the final callback
    after the last one, happen inside the timer callback of the run
    before.  async has no [try] on that path either. *)
Fixpoint async_eachSeries {S A} (n : nat) (fr : Frame)
    (iteratee final : JS S unit) (ok : A) (s : S) : Outcome A * S :=
  match n with
  | O =>
      match final s with
      | (Normal _, s') => (Resolved ok, s')
      | (Throw e, s') => (unwind fr e, s')
      end
  | S n' =>
      match iteratee s with
      | (Normal _, s') => async_eachSeries n' TimerCallback iteratee final ok s'
      | (Throw e, s') => (unwind fr e, s')
      end
  end.

(** [Array.from({length: n})]: the length is clamped to [0, 2^53 - 1]
    (ToLength), and [new Array(len)] throws above [2^32 - 1]. *)
Definition arrayFromLength (n : Z) : Completion nat :=
  let len := Z.min (Z.max n 0) (2 ^ 53 - 1) in
  if 2 ^ 32 <=? len
  then Throw (RangeError "Invalid array length")
  else Normal (Z.to_nat len).

(** [xs[i]] for a number [i]. *)
Definition jsIndex {A} (xs : list A) (i : Z) : option A :=
  if i <? 0 then None else nth_error xs (Z.to_nat i).

Definition jsElement (row : list Z) (i : nat) : JsVal :=
  match nth_error row i with
  | Some v => VNum v
  | None => VUndefined
  end.

(** ** The driver *)

Record StepperMotor : Type := mkStepperMotor {
  chip : Chip;
  pins : list Z;
  gpioLines : list Line;
  stepSequence : list (list Z);
  motorStepCounter : Z
}.

Record Heap : Type := mkHeap { this : StepperMotor; log : list Effect }.

Module Config.
Record t : Type := mk {
  chipName : option string;
  pins : option (list Z);
  stepSequence : option (list (list Z));
  initialStepCounter : option Z;
  consumerName : option string
}.
Definition empty : t := mk None None None None None.
End Config.

Record MoveConfig : Type := mkMoveConfig {
  stepCount : option Z;
  direction : option bool;
  stepSleep : option Z
}.

Definition orDefault {A} (o : option A) (d : A) : A :=
  match o with
  | Some a => a
  | None => d
  end.

Definition defaultStepSequence : list (list Z) :=
  [ [1; 0; 0; 1];
    [1; 0; 0; 0];
    [1; 1; 0; 0];
    [0; 1; 0; 0];
    [0; 1; 1; 0];
    [0; 0; 1; 0];
    [0; 0; 1; 1];
    [0; 0; 0; 1] ].

Definition setCounter (d : StepperMotor) (c : Z) : StepperMotor :=
  mkStepperMotor (chip d) (pins d) (gpioLines d) (stepSequence d) c.

(** The assignment of [move]'s second waterfall task. *)
Definition nextCounter (dir : bool) (c : Z) : Z :=
  if dir then Z.rem (c - 1 + 8) 8 else Z.rem (c + 1) 8.

Section Driver.

Variable provider : Provider.

(** A GPIO call: throws when the provider says so, is logged otherwise. *)
Definition call (ef : Effect) : JS (list Effect) unit :=
  fun lg =>
    match provider lg ef with
    | Some e => (Throw e, lg)
    | None => (Normal tt, lg ++ [ef])
    end.

Definition gpio (ef : Effect) : JS Heap unit :=
  fun h =>
    match call ef (log h) with
    | (r, lg) => (r, mkHeap (this h) lg)
    end.

(** [setTimeout(cb, ms)] never throws. *)
Definition setTimeout (ms : Z) : JS Heap unit :=
  fun h => (Normal tt, mkHeap (this h) (log h ++ [SetTimeout ms])).

Definition newChip (name : string) : JS (list Effect) Chip :=
  call (NewChip name) ;; ret (mkChip name).

Definition newLine (c : Chip) (pin : Z) : JS (list Effect) Line :=
  call (NewLine c pin) ;; ret (mkLine c pin).

Definition setupPins (consumerName : string) : JS Heap unit :=
  fun h =>
    forEach (gpioLines (this h))
      (fun line => gpio (RequestOutputMode line 0 consumerName)) h.

Definition construct (config : Config.t) : JS (list Effect) StepperMotor :=
  let chipName := orDefault (Config.chipName config) "gpiochip4" in
  let pins := orDefault (Config.pins config) [17; 18; 27; 22] in
  let initialStepCounter := orDefault (Config.initialStepCounter config) 0 in
  let consumerName := orDefault (Config.consumerName config) "stepper" in
  c <- newChip chipName ;;
  lines <- mapM (newLine c) pins ;;
  let d :=
    mkStepperMotor c pins lines
      (orDefault (Config.stepSequence config) defaultStepSequence)
      initialStepCounter in
  fun lg =>
    match setupPins consumerName (mkHeap d lg) with
    | (Normal _, h) => (Normal (this h), log h)
    | (Throw e, h) => (Throw e, log h)
    end.

Definition cleanup : JS Heap unit :=
  fun h =>
    forEach (gpioLines (this h))
      (fun line => gpio (SetValue line (VNum 0))) h.

(** The iteratee of the inner [async.each]:
    [this.gpioLines[pin].setValue(this.stepSequence[this.motorStepCounter][pin])]. *)
Definition writePin (pin : nat) : JS Heap unit :=
  fun h =>
    match nth_error (gpioLines (this h)) pin with
    | None => (Throw (TypeError "Cannot read properties of undefined (reading 'setValue')"), h)
    | Some line =>
        match jsIndex (stepSequence (this h)) (motorStepCounter (this h)) with
        | None => (Throw (TypeError "Cannot read properties of undefined"), h)
        | Some row => gpio (SetValue line (jsElement row pin)) h
        end
    end.

(** First waterfall task. *)
Definition writeRow : JS Heap unit :=
  fun h => async_each (seq 0 (List.length (gpioLines (this h)))) writePin h.

(** Second waterfall task. *)
Definition stepCounter (dir : bool) (ms : Z) : JS Heap unit :=
  fun h =>
    setTimeout ms
      (mkHeap (setCounter (this h) (nextCounter dir (motorStepCounter (this h))))
              (log h)).

(** [async.waterfall([t1, t2], callback)]: the tasks in order. *)
Definition advance (dir : bool) (ms : Z) : JS Heap unit :=
  writeRow ;; stepCounter dir ms.

Definition move (config : MoveConfig) (h : Heap) : Outcome string * Heap :=
  let stepCount := orDefault (stepCount config) 4096 in
  let direction := orDefault (direction config) false in
  let stepSleep := orDefault (stepSleep config) 2 in
  match arrayFromLength stepCount with
  | Throw e => (Rejected e, h)
  | Normal n =>
      async_eachSeries n Executor (advance direction stepSleep) cleanup
        "Success" h
  end.

(** [delete()]: everything runs in the promise executor. *)
Definition delete (h : Heap) : Outcome unit * Heap :=
  match async_each (gpioLines (this h)) (fun line => gpio (Release line)) h with
  | (Normal _, h') => (Resolved tt, h')
  | (Throw e, h') => (Rejected e, h')
  end.

End Driver.

(** ** Observations on the effect log *)

Definition Line_eqb (a b : Line) : bool :=
  String.eqb (chip_name (line_chip a)) (chip_name (line_chip b))
  && (line_pin a =? line_pin b).

Definition isWrite (ef : Effect) : bool :=
  match ef with
  | SetValue _ _ => true
  | _ => false
  end.

(** The value most recently written to a line, if any. *)
Definition lastWritten (l : Line) (lg : list Effect) : option JsVal :=
  fold_left
    (fun acc ef =>
       match ef with
       | SetValue l' v => if Line_eqb l l' then Some v else acc
       | _ => acc
       end)
    lg None.

(** What [move] and [cleanup] may do to the outside world: write to a
    line of the driver, arm a timer. *)
Definition moveEffect (lines : list Line) (ef : Effect) : Prop :=
  match ef with
  | SetValue l _ => In l lines
  | SetTimeout _ => True
  | _ => False
  end.

(** Two drivers that differ at most in the step counter. *)
Definition sameBinding (d d' : StepperMotor) : Prop :=
  chip d' = chip d /\ pins d' = pins d /\
  gpioLines d' = gpioLines d /\ stepSequence d' = stepSequence d.

(** Whether a line is currently claimed for output: its most recent
    request or release in the log is a request. *)
Definition claimed (l : Line) (lg : list Effect) : bool :=
  fold_left
    (fun acc ef =>
       match ef with
       | RequestOutputMode l' _ _ => if Line_eqb l l' then true else acc
       | Release l' => if Line_eqb l l' then false else acc
       | _ => acc
       end)
    lg false.

(** [h'] is [h] after writes to lines of the driver and timers only:
    the binding is the same and nothing else was done to the world. *)
Definition movesOnly (h h' : Heap) : Prop :=
  sameBinding (this h) (this h') /\
  exists evs, log h' = log h ++ evs /\
              Forall (moveEffect (gpioLines (this h))) evs.

Definition zeroWrites (lines : list Line) : list Effect :=
  map (fun l => SetValue l (VNum 0)) lines.

(** ** Concrete providers and sessions *)

(** A provider on which no call ever throws. *)
Definition noFault : Provider := fun _ _ => None.

(** A provider on which the write attempted after [k] successful writes
    throws, and nothing else does. *)
Definition failWriteAfter (k : nat) : Provider :=
  fun lg ef =>
    if isWrite ef && Nat.eqb (List.length (filter isWrite lg)) k
    then Some (GpioError "::setValue() failed")
    else None.

(** [const m = new StepperMotor(config); m.move(mc)] from an empty log. *)
Definition constructThenMove (p : Provider) (config : Config.t)
    (mc : MoveConfig) : option (Outcome string * Heap) :=
  match construct p config [] with
  | (Normal d, lg) => Some (move p mc (mkHeap d lg))
  | (Throw _, _) => None
  end.

Definition gpiochip4 : Chip := mkChip "gpiochip4".
Definition line17 : Line := mkLine gpiochip4 17.
Definition line18 : Line := mkLine gpiochip4 18.
Definition line27 : Line := mkLine gpiochip4 27.
Definition line22 : Line := mkLine gpiochip4 22.

(** Scenario B of the specification: two pins, two rows. *)
Definition scenarioB : Config.t :=
  Config.mk None (Some [17; 18]) (Some [[1; 0]; [0; 1]]) None None.

(** Four pins (the default) against rows of width two. *)
Definition mismatched : Config.t :=
  Config.mk None None (Some [[1; 0]; [0; 1]]) None None.

(** The same construction request with another step sequence. *)
Definition withStepSequence (config : Config.t)
    (ss : option (list (list Z))) : Config.t :=
  Config.mk (Config.chipName config) (Config.pins config) ss
    (Config.initialStepCounter config) (Config.consumerName config).

(** The driver a default construction returns, with its counter at [c],
    and the log that construction leaves behind. *)
Definition defaultDriver (c : Z) : StepperMotor :=
  mkStepperMotor gpiochip4 [17; 18; 27; 22]
    [line17; line18; line27; line22] defaultStepSequence c.

Definition defaultBoot : list Effect :=
  [NewChip "gpiochip4";
   NewLine gpiochip4 17; NewLine gpiochip4 18;
   NewLine gpiochip4 27; NewLine gpiochip4 22;
   RequestOutputMode line17 0 "stepper"; RequestOutputMode line18 0 "stepper";
   RequestOutputMode line27 0 "stepper"; RequestOutputMode line22 0 "stepper"].

(** The same for scenario B. *)
Definition driverB (c : Z) : StepperMotor :=
  mkStepperMotor gpiochip4 [17; 18] [line17; line18] [[1; 0]; [0; 1]] c.

Definition bootB : list Effect :=
  [NewChip "gpiochip4"; NewLine gpiochip4 17; NewLine gpiochip4 18;
   RequestOutputMode line17 0 "stepper"; RequestOutputMode line18 0 "stepper"].

(** The effects of one completed advance that found [row] under the
    counter. *)
Definition advanceLog (lines : list Line) (row : list Z) (ms : Z)
  : list Effect :=
  map (fun lv => SetValue (fst lv) (VNum (snd lv))) (combine lines row)
  ++ [SetTimeout ms].

(** A default driver stopped on row 3, before anything was logged. *)
Definition parked : Heap := mkHeap (defaultDriver 3) [].

Definition steps (n : Z) (dir : bool) : MoveConfig :=
  mkMoveConfig (Some n) (Some dir) None.

(** ** Further observations and providers *)

Definition isTimer (ef : Effect) : bool :=
  match ef with
  | SetTimeout _ => true
  | _ => false
  end.

(** The delays of the timers armed, oldest first. *)
Definition timerDelays (lg : list Effect) : list Z :=
  flat_map (fun ef => match ef with SetTimeout ms => [ms] | _ => [] end) lg.

(** The writes of one pass over the lines with [row] under the counter,
    the first line being column [i]. *)
Fixpoint rowWritesFrom (i : nat) (lines : list Line) (row : list Z)
  : list Effect :=
  match lines with
  | [] => []
  | l :: rest => SetValue l (jsElement row i) :: rowWritesFrom (S i) rest row
  end.

Definition rowWrites (lines : list Line) (row : list Z) : list Effect :=
  rowWritesFrom 0 lines row.

(** A provider that accepts every write. *)
Definition acceptsWrites (p : Provider) : Prop :=
  forall lg l v, p lg (SetValue l v) = None.

(** A provider on which the pin [pin] is held by another consumer:
    requesting it throws, nothing else does. *)
Definition busyOn (pin : Z) : Provider :=
  fun _ ef =>
    match ef with
    | RequestOutputMode l _ _ =>
        if line_pin l =? pin then Some (GpioError "Resource busy") else None
    | _ => None
    end.

(** A provider on which no line of chip [name] can be opened. *)
Definition noSuchChip (name : string) : Provider :=
  fun _ ef =>
    match ef with
    | NewChip n =>
        if String.eqb n name then Some (GpioError "Unable to open device") else None
    | _ => None
    end.

(** A provider on which writing to the pin [pin] throws. *)
Definition deadPin (pin : Z) : Provider :=
  fun _ ef =>
    match ef with
    | SetValue l _ =>
        if line_pin l =? pin then Some (GpioError "::setValue() failed") else None
    | _ => None
    end.

(** A default driver whose counter was set outside the table, and a
    driver bound to no pin at all. *)
Definition offTable : Heap := mkHeap (defaultDriver 8) [].


(** The row index an eight-row table is read at by the advance number
    [j] (from 0) of a move that started with the counter at [c]. *)
Definition rowIndexAt (dir : bool) (c : Z) (j : nat) : Z :=
  if dir then (c - Z.of_nat j) mod 8 else (c + Z.of_nat j) mod 8.

Definition rowAt (table : list (list Z)) (i : Z) : list Z :=
  orDefault (jsIndex table i) [].

(** The effects of a move of [n] steps that meets no refusal: per
    advance the row under the counter written column by column and one
    timer, then the zeroing of the lines. *)
Definition moveTrace (lines : list Line) (table : list (list Z))
    (dir : bool) (ms : Z) (c : Z) (n : nat) : list Effect :=
  flat_map
    (fun j => rowWrites lines (rowAt table (rowIndexAt dir c j))
              ++ [SetTimeout ms])
    (seq 0 n)
  ++ zeroWrites lines.

(** ** The example controller of the README

    [BlindsController.toggleBlinds] drives the motor through 28 awaited
    moves of 1024 steps.  The state is the motor's heap and what was
    printed with [console.log], one list of arguments per call. *)




(** * Properties *)

(** ** Loops over the lines *)

Section Loops.

Variable p : Provider.

Lemma in_prefix {A} (x : A) k l : In x (firstn k l) -> In x l.
Proof.
  intros H. rewrite <- (firstn_skipn k l). apply in_or_app. left. exact H.
Qed.

Lemma heap_eta h : mkHeap (this h) (log h) = h.
Proof. destruct h; reflexivity. Qed.

(** A loop issuing one GPIO call per line performs the calls of a prefix
    of the lines, in order, each of them accepted by the provider; it
    completes exactly when the prefix is the whole list, and otherwise
    throws what the provider threw at the first line outside the prefix. *)
Lemma forEach_gpio_spec (f : Line -> Effect) (ls : list Line) :
  forall h,
  exists k,
    snd (forEach ls (fun l => gpio p (f l)) h)
      = mkHeap (this h) (log h ++ map f (firstn k ls)) /\
    (forall i l, (i < k)%nat -> nth_error ls i = Some l ->
                 p (log h ++ map f (firstn i ls)) (f l) = None) /\
    match fst (forEach ls (fun l => gpio p (f l)) h) with
    | Normal _ => k = List.length ls
    | Throw e =>
        exists l, nth_error ls k = Some l /\
                  p (log h ++ map f (firstn k ls)) (f l) = Some e
    end.
Proof.
  induction ls as [|x rest IH]; intros h.
  - exists 0%nat. cbn. rewrite app_nil_r, heap_eta.
    repeat split; intros; lia.
  - cbn [forEach]. unfold bind, gpio at 1 3, call.
    destruct (p (log h) (f x)) eqn:Hp.
    + exists 0%nat. cbn. rewrite app_nil_r.
      split; [reflexivity|]. split; [intros; lia|].
      exists x. auto.
    + destruct (IH (mkHeap (this h) (log h ++ [f x]))) as [k [Hs [Hok Hr]]].
      exists (S k). cbn [this log] in Hs, Hok, Hr.
      assert (Hshift : forall j,
                 log h ++ map f (firstn (S j) (x :: rest))
                 = (log h ++ [f x]) ++ map f (firstn j rest)).
      { intros j. cbn [firstn map]. rewrite <- app_assoc. reflexivity. }
      rewrite Hshift. split; [exact Hs|]. split.
      * intros [|i] l Hi Hn.
        -- cbn in Hn. injection Hn as <-. cbn. rewrite app_nil_r. exact Hp.
        -- rewrite Hshift. apply Hok; [lia | exact Hn].
      * destruct (fst (forEach rest (fun l => gpio p (f l))
                         (mkHeap (this h) (log h ++ [f x])))).
        -- cbn. congruence.
        -- exact Hr.
Qed.

(** Such a loop reads nothing of [this] but the lines it is given. *)
Lemma forEach_gpio_this (f : Line -> Effect) (ls : list Line) d d' :
  forall lg,
    forEach ls (fun l => gpio p (f l)) (mkHeap d' lg)
    = (fst (forEach ls (fun l => gpio p (f l)) (mkHeap d lg)),
       mkHeap d' (log (snd (forEach ls (fun l => gpio p (f l)) (mkHeap d lg))))).
Proof.
  induction ls as [|x rest IH]; intros lg.
  - reflexivity.
  - cbn [forEach]. unfold bind, gpio at 1 3 5, call. cbn [this log].
    destruct (p lg (f x)).
    + reflexivity.
    + apply IH.
Qed.

Lemma cleanup_completes h :
  fst (cleanup p h) = Normal tt ->
  snd (cleanup p h) = mkHeap (this h) (log h ++ zeroWrites (gpioLines (this h))).
Proof.
  unfold cleanup, zeroWrites. intros Hn.
  destruct (forEach_gpio_spec (fun l => SetValue l (VNum 0))
              (gpioLines (this h)) h) as [k [Hs [_ Hr]]].
  rewrite Hn in Hr. subst k. rewrite firstn_all in Hs. exact Hs.
Qed.

Lemma cleanup_this h : this (snd (cleanup p h)) = this h.
Proof.
  unfold cleanup.
  destruct (forEach_gpio_spec (fun l => SetValue l (VNum 0))
              (gpioLines (this h)) h) as [k [Hs _]].
  rewrite Hs. reflexivity.
Qed.

End Loops.

(** ** Array lengths *)

Lemma arrayFromLength_nonpos n : n <= 0 -> arrayFromLength n = Normal 0%nat.
Proof.
  intros Hn. unfold arrayFromLength.
  rewrite Z.max_r by exact Hn.
  reflexivity.
Qed.

Lemma arrayFromLength_small n :
  0 <= n < 2 ^ 32 -> arrayFromLength n = Normal (Z.to_nat n).
Proof.
  intros [H0 H1]. unfold arrayFromLength.
  rewrite Z.max_l by exact H0.
  assert (H53 : 2 ^ 32 < 2 ^ 53 - 1) by reflexivity.
  rewrite Z.min_l by lia.
  destruct (2 ^ 32 <=? n) eqn:E; [apply Z.leb_le in E; lia | reflexivity].
Qed.

(** ** Frame *)

Section FrameLemmas.

Variable p : Provider.

Lemma sameBinding_refl d : sameBinding d d.
Proof. repeat split. Qed.

Lemma movesOnly_refl h : movesOnly h h.
Proof.
  split; [apply sameBinding_refl|].
  exists []. rewrite app_nil_r. auto.
Qed.

Lemma movesOnly_trans h1 h2 h3 :
  movesOnly h1 h2 -> movesOnly h2 h3 -> movesOnly h1 h3.
Proof.
  intros [[Hc [Hp [Hl Hs]]] [e1 [L1 F1]]] [[Hc' [Hp' [Hl' Hs']]] [e2 [L2 F2]]].
  split.
  - repeat split; congruence.
  - exists (e1 ++ e2). split.
    + rewrite L2, L1, app_assoc. reflexivity.
    + apply Forall_app. split; [exact F1|].
      rewrite Hl in F2. exact F2.
Qed.

Lemma gpio_write_movesOnly l v h :
  In l (gpioLines (this h)) -> movesOnly h (snd (gpio p (SetValue l v) h)).
Proof.
  intros Hin. unfold gpio, call.
  destruct (p (log h) (SetValue l v)); cbn.
  - rewrite heap_eta. apply movesOnly_refl.
  - split; [apply sameBinding_refl|].
    exists [SetValue l v]. split; [reflexivity|].
    constructor; [exact Hin | constructor].
Qed.

Lemma writePin_movesOnly pin h : movesOnly h (snd (writePin p pin h)).
Proof.
  unfold writePin.
  destruct (nth_error (gpioLines (this h)) pin) as [l|] eqn:Hl;
    [|apply movesOnly_refl].
  destruct (jsIndex (stepSequence (this h)) (motorStepCounter (this h)));
    [|apply movesOnly_refl].
  apply gpio_write_movesOnly. eapply nth_error_In; eassumption.
Qed.

Lemma forEach_movesOnly {A} (body : A -> JS Heap unit) :
  (forall x h, movesOnly h (snd (body x h))) ->
  forall xs h, movesOnly h (snd (forEach xs body h)).
Proof.
  intros Hb. induction xs as [|x rest IH]; intros h.
  - apply movesOnly_refl.
  - cbn [forEach]. unfold bind.
    specialize (Hb x h).
    destruct (body x h) as [[[]|e] h1]; cbn in Hb |- *.
    + eapply movesOnly_trans; [exact Hb | apply IH].
    + exact Hb.
Qed.

Lemma writeRow_movesOnly h : movesOnly h (snd (writeRow p h)).
Proof.
  unfold writeRow, async_each.
  apply forEach_movesOnly. apply writePin_movesOnly.
Qed.

Lemma stepCounter_movesOnly dir ms h : movesOnly h (snd (stepCounter dir ms h)).
Proof.
  unfold stepCounter, setTimeout. cbn.
  split; [repeat split|].
  exists [SetTimeout ms]. split; [reflexivity|].
  constructor; [exact I | constructor].
Qed.

Lemma advance_movesOnly dir ms h : movesOnly h (snd (advance p dir ms h)).
Proof.
  unfold advance, bind.
  pose proof (writeRow_movesOnly h) as Hw.
  destruct (writeRow p h) as [[[]|e] h1]; cbn in Hw |- *.
  - eapply movesOnly_trans; [exact Hw | apply stepCounter_movesOnly].
  - exact Hw.
Qed.

Lemma cleanup_movesOnly h : movesOnly h (snd (cleanup p h)).
Proof.
  unfold cleanup.
  destruct (forEach_gpio_spec p (fun l => SetValue l (VNum 0))
              (gpioLines (this h)) h) as [k [Hs _]].
  rewrite Hs. cbn. split; [apply sameBinding_refl|].
  eexists. split; [reflexivity|].
  apply Forall_forall. intros ef Hin.
  apply in_map_iff in Hin. destruct Hin as [l [<- Hl]].
  cbn. eapply in_prefix; eassumption.
Qed.

Lemma async_eachSeries_movesOnly {A} (iteratee final : JS Heap unit) (ok : A) :
  (forall h, movesOnly h (snd (iteratee h))) ->
  (forall h, movesOnly h (snd (final h))) ->
  forall n fr h,
    movesOnly h (snd (async_eachSeries n fr iteratee final ok h)).
Proof.
  intros Hi Hf. induction n as [|n IH]; intros fr h; cbn [async_eachSeries].
  - specialize (Hf h). destruct (final h) as [[[]|e] h1]; exact Hf.
  - specialize (Hi h). destruct (iteratee h) as [[[]|e] h1]; cbn in Hi |- *.
    + eapply movesOnly_trans; [exact Hi | apply IH].
    + exact Hi.
Qed.

Lemma move_movesOnly mc h : movesOnly h (snd (move p mc h)).
Proof.
  unfold move.
  destruct (arrayFromLength (orDefault (stepCount mc) 4096)).
  - apply async_eachSeries_movesOnly.
    + apply advance_movesOnly.
    + apply cleanup_movesOnly.
  - apply movesOnly_refl.
Qed.

End FrameLemmas.

(** C10: [move] and [cleanup] change nothing of the driver but the step
    counter and nothing of the world but the values of the driver's own
    lines (and the timers [move] arms): chip, pins, line handles and step
    sequence are the same afterwards, and [cleanup] leaves the whole
    object, step counter included, as it was. *)
Theorem C10_move_cleanup_frame (p : Provider) (mc : MoveConfig) (h : Heap) :
  movesOnly h (snd (move p mc h)) /\
  movesOnly h (snd (cleanup p h)) /\
  motorStepCounter (this (snd (cleanup p h))) = motorStepCounter (this h).
Proof.
  split; [apply move_movesOnly|].
  split; [apply cleanup_movesOnly|].
  rewrite cleanup_this. reflexivity.
Qed.

(** ** Zero and negative step counts *)

(** With no element to iterate, [eachSeries] calls the final callback at
    once, still inside the promise executor. *)
Lemma move_nonpos (p : Provider) n dir ms h :
  n <= 0 ->
  move p (mkMoveConfig (Some n) dir ms) h
  = match cleanup p h with
    | (Normal _, h') => (Resolved "Success", h')
    | (Throw e, h') => (Rejected e, h')
    end.
Proof.
  intros Hn. unfold move. cbn [stepCount orDefault].
  rewrite arrayFromLength_nonpos by exact Hn.
  reflexivity.
Qed.

Lemma move_nonpos_completes (p : Provider) n dir ms h :
  n <= 0 ->
  fst (cleanup p h) = Normal tt ->
  move p (mkMoveConfig (Some n) dir ms) h
  = (Resolved "Success",
     mkHeap (this h) (log h ++ zeroWrites (gpioLines (this h)))).
Proof.
  intros Hn Hc. rewrite move_nonpos by exact Hn.
  pose proof (cleanup_completes p h Hc) as Hs.
  destruct (cleanup p h) as [[[]|e] h']; cbn in Hc, Hs.
  - rewrite Hs. reflexivity.
  - discriminate.
Qed.

(** C5: [move] with [stepCount = 0] advances nothing and arms no timer:
    it leaves the object as it was (step counter included) and all it
    does to the world is [cleanup]'s writes of 0 to the lines, in order
    (all of them unless one throws).  When those writes go through it
    resolves with "Success", still inside the call that created the
    promise. *)
Theorem C5_move_zero_steps (p : Provider) dir ms (h : Heap) :
  this (snd (move p (mkMoveConfig (Some 0) dir ms) h)) = this h /\
  (exists k,
      log (snd (move p (mkMoveConfig (Some 0) dir ms) h))
      = log h ++ zeroWrites (firstn k (gpioLines (this h)))) /\
  (fst (cleanup p h) = Normal tt ->
   move p (mkMoveConfig (Some 0) dir ms) h
   = (Resolved "Success",
      mkHeap (this h) (log h ++ zeroWrites (gpioLines (this h))))).
Proof.
  split; [|split].
  - rewrite move_nonpos by lia.
    pose proof (cleanup_this p h) as Ht.
    destruct (cleanup p h) as [[[]|e] h']; exact Ht.
  - rewrite move_nonpos by lia.
    destruct (forEach_gpio_spec p (fun l => SetValue l (VNum 0))
                (gpioLines (this h)) h) as [k [Hs _]].
    fold (cleanup p h) in Hs. exists k.
    destruct (cleanup p h) as [[[]|e] h']; cbn in Hs |- *; rewrite Hs; reflexivity.
  - apply move_nonpos_completes. lia.
Qed.

Lemma C5_move_zero_steps_witness :
  fst (cleanup noFault parked) = Normal tt /\
  move noFault (mkMoveConfig (Some 0) None None) parked
  = (Resolved "Success",
     mkHeap (defaultDriver 3) (zeroWrites [line17; line18; line27; line22])).
Proof.
  split; [reflexivity|].
  destruct (C5_move_zero_steps noFault None None parked) as [_ [_ Hok]].
  apply Hok. reflexivity.
Defined.

(** C4, as the code has it: a negative [stepCount] is not rejected as a
    configuration error.  [Array.from] turns the negative length into an
    empty array, so the call behaves exactly as [stepCount = 0]: no
    advance, [cleanup], and "Success" when the zeroing writes go through;
    the only rejection possible is with an error thrown by one of those
    writes. *)
Theorem C4_negative_stepCount_is_zero_steps (p : Provider) n dir ms (h : Heap) :
  n < 0 ->
  move p (mkMoveConfig (Some n) dir ms) h
    = move p (mkMoveConfig (Some 0) dir ms) h /\
  (fst (cleanup p h) = Normal tt ->
   move p (mkMoveConfig (Some n) dir ms) h
   = (Resolved "Success",
      mkHeap (this h) (log h ++ zeroWrites (gpioLines (this h))))) /\
  (forall e, fst (move p (mkMoveConfig (Some n) dir ms) h) = Rejected e ->
             fst (cleanup p h) = Throw e).
Proof.
  intros Hn. split; [|split].
  - rewrite !move_nonpos by lia. reflexivity.
  - apply move_nonpos_completes. lia.
  - intros e. rewrite move_nonpos by lia.
    destruct (cleanup p h) as [[[]|e'] h']; cbn; congruence.
Qed.

Lemma C4_negative_stepCount_is_zero_steps_witness :
  -1 < 0 /\
  move noFault (mkMoveConfig (Some (-1)) None None) parked
  = move noFault (mkMoveConfig (Some 0) None None) parked.
Proof.
  split; [lia|].
  destruct (C4_negative_stepCount_is_zero_steps noFault (-1) None None parked)
    as [Hsame _]; [lia | exact Hsame].
Defined.

(** C4 as stated fails: on a default driver with a provider that never
    throws, [move({stepCount: -1})] resolves with "Success". *)
Lemma C4_negative_stepCount_not_rejected :
  option_map fst (constructThenMove noFault Config.empty (steps (-1) false))
    = Some (Resolved "Success") /\
  ~ (exists e,
        option_map fst (constructThenMove noFault Config.empty (steps (-1) false))
        = Some (Rejected e)).
Proof.
  split; [reflexivity|].
  intros [e He]. discriminate He.
Qed.

(** ** Construction *)

Section Construction.

Variable p : Provider.

Lemma Line_eqb_refl l : Line_eqb l l = true.
Proof.
  unfold Line_eqb. rewrite String.eqb_refl, Z.eqb_refl. reflexivity.
Qed.

Lemma mapM_newLine c pns :
  forall lg ls lg',
    mapM (newLine p c) pns lg = (Normal ls, lg') ->
    ls = map (mkLine c) pns /\ lg' = lg ++ map (NewLine c) pns.
Proof.
  induction pns as [|x rest IH]; intros lg ls lg' H.
  - cbn in H. injection H as <- <-. rewrite app_nil_r. auto.
  - cbn [mapM] in H. unfold bind, newLine at 1, call, ret in H.
    unfold bind at 1 in H.
    destruct (p lg (NewLine c x)); [discriminate|].
    destruct (mapM (newLine p c) rest (lg ++ [NewLine c x]))
      as [[ys|e] lg1] eqn:Hm; [|discriminate].
    injection H as <- <-.
    destruct (IH _ _ _ Hm) as [-> ->].
    cbn [map]. rewrite <- app_assoc. auto.
Qed.

(** What a construction that returns has done, and what it returns. *)
Lemma construct_inv config lg d lg' :
  construct p config lg = (Normal d, lg') ->
  let c := mkChip (orDefault (Config.chipName config) "gpiochip4") in
  let pns := orDefault (Config.pins config) [17; 18; 27; 22] in
  d = mkStepperMotor c pns (map (mkLine c) pns)
        (orDefault (Config.stepSequence config) defaultStepSequence)
        (orDefault (Config.initialStepCounter config) 0) /\
  lg' = lg ++ NewChip (chip_name c) :: map (NewLine c) pns
           ++ map (fun l => RequestOutputMode l 0
                              (orDefault (Config.consumerName config) "stepper"))
                  (map (mkLine c) pns).
Proof.
  intros H c pns. unfold construct in H.
  fold c in H. fold pns in H.
  unfold bind at 1, newChip, call, ret in H. unfold bind at 1 in H.
  change (orDefault (Config.chipName config) "gpiochip4") with (chip_name c) in H.
  destruct (p lg (NewChip (chip_name c))); [discriminate|].
  unfold bind at 1 in H.
  change {| chip_name := chip_name c |} with c in H.
  destruct (mapM (newLine p c) pns (lg ++ [NewChip (chip_name c)]))
    as [[ls|e] lg1] eqn:Hm; [|discriminate].
  destruct (mapM_newLine _ _ _ _ _ Hm) as [-> ->].
  unfold setupPins in H. cbn [this gpioLines log] in H.
  match type of H with
  | context [forEach ?ls ?body ?h0] =>
      destruct (forEach_gpio_spec p
                  (fun l => RequestOutputMode l 0
                              (orDefault (Config.consumerName config) "stepper"))
                  ls h0) as [k [Hs [_ Hr]]];
      destruct (forEach ls body h0) as [[[]|e] h1]
  end; [|discriminate].
  cbn in Hs, Hr. subst k. rewrite firstn_all in Hs. subst h1.
  cbn [this log] in H. injection H as <- <-.
  split; [reflexivity|].
  rewrite <- !app_assoc. reflexivity.
Qed.

Lemma claimed_after_requests l consumer ls :
  In l ls ->
  forall lg,
    claimed l (lg ++ map (fun x => RequestOutputMode x 0 consumer) ls) = true.
Proof.
  intros Hin lg. unfold claimed. rewrite fold_left_app.
  generalize (fold_left
                (fun acc ef =>
                   match ef with
                   | RequestOutputMode l' _ _ => if Line_eqb l l' then true else acc
                   | Release l' => if Line_eqb l l' then false else acc
                   | _ => acc
                   end) lg false) as acc.
  induction ls as [|x rest IH]; intros acc; [contradiction|].
  cbn [map fold_left].
  destruct (Line_eqb l x) eqn:E.
  - clear IH Hin. generalize rest. clear rest.
    induction rest as [|y rest IH]; [reflexivity|].
    cbn [map fold_left]. destruct (Line_eqb l y); exact IH.
  - destruct Hin as [->|Hin].
    + rewrite Line_eqb_refl in E. discriminate.
    + apply IH. exact Hin.
Qed.

End Construction.

(** C8: after a construction that returns, the step counter is the
    caller's [initialStepCounter] (0 when absent), every line of the
    driver is claimed for output, and the constructor has written no
    value to any line: all it did was open the chip, open one line per
    pin and request output mode on each. *)
Theorem C8_construct_postcondition (p : Provider) (config : Config.t)
    (lg : list Effect) (d : StepperMotor) (lg' : list Effect) :
  construct p config lg = (Normal d, lg') ->
  motorStepCounter d = orDefault (Config.initialStepCounter config) 0 /\
  (forall l, In l (gpioLines d) -> claimed l lg' = true) /\
  exists evs,
    lg' = lg ++ evs /\
    evs = NewChip (chip_name (chip d))
            :: map (NewLine (chip d)) (pins d)
            ++ map (fun l => RequestOutputMode l 0
                               (orDefault (Config.consumerName config) "stepper"))
                   (gpioLines d) /\
    forall l v, ~ In (SetValue l v) evs.
Proof.
  intros H. destruct (construct_inv p _ _ _ _ H) as [Hd Hlg].
  split; [rewrite Hd; reflexivity|]. split.
  - intros l Hin. rewrite Hlg.
    change (?a ++ ?x :: ?b ++ ?c) with (a ++ (x :: b) ++ c).
    rewrite app_assoc. apply claimed_after_requests.
    rewrite Hd in Hin. exact Hin.
  - eexists. split; [exact Hlg|]. split.
    + rewrite Hd. reflexivity.
    + intros l v [Hin|Hin]; [discriminate|].
      apply in_app_or in Hin. destruct Hin as [Hin|Hin];
        apply in_map_iff in Hin; destruct Hin as [x [Hx _]]; discriminate.
Qed.

Lemma C8_construct_postcondition_witness :
  construct noFault Config.empty [] = (Normal (defaultDriver 0), defaultBoot) /\
  claimed line27 defaultBoot = true.
Proof.
  split; [reflexivity|].
  destruct (C8_construct_postcondition noFault Config.empty []
              (defaultDriver 0) defaultBoot eq_refl)
    as [_ [Hclaimed _]].
  apply Hclaimed. cbn. auto.
Defined.

(** C7, as the code has it: the constructor never compares the width of
    the step sequence with the number of pins.  Given any step sequence,
    of any shape, construction returns or throws exactly as it does for
    the same request with another (or no) sequence, performs the same
    GPIO calls, and the driver it returns holds the sequence as given. *)
Theorem C7_construct_ignores_row_width (p : Provider) (config : Config.t)
    (ss : list (list Z)) (lg : list Effect) :
  construct p (withStepSequence config (Some ss)) lg
  = match construct p config lg with
    | (Normal d, lg') =>
        (Normal (mkStepperMotor (chip d) (pins d) (gpioLines d) ss
                   (motorStepCounter d)), lg')
    | (Throw e, lg') => (Throw e, lg')
    end.
Proof.
  unfold construct, withStepSequence. cbn [Config.chipName Config.pins
    Config.stepSequence Config.initialStepCounter Config.consumerName orDefault].
  unfold bind at 1 3.
  destruct (newChip p (orDefault (Config.chipName config) "gpiochip4") lg)
    as [[c|e] lg1]; [|reflexivity].
  unfold bind at 1 2.
  destruct (mapM (newLine p c)
              (orDefault (Config.pins config) [17; 18; 27; 22]) lg1)
    as [[ls|e] lg2]; [|reflexivity].
  unfold setupPins. cbn [this gpioLines log].
  match goal with
  | |- context [forEach ?l ?body (mkHeap ?d1 lg2)] =>
      match goal with
      | |- context [forEach l body (mkHeap ?d2 lg2)] =>
          lazymatch d1 with
          | d2 => fail
          | _ =>
              rewrite (forEach_gpio_this p
                         (fun x => RequestOutputMode x 0
                            (orDefault (Config.consumerName config) "stepper"))
                         l d2 d1 lg2)
          end
      end
  end.
  match goal with
  | |- context [forEach ?l ?body ?h0] =>
      destruct (forEach_gpio_spec p
                  (fun x => RequestOutputMode x 0
                     (orDefault (Config.consumerName config) "stepper"))
                  l h0) as [k [Hs _]];
      destruct (forEach l body h0) as [[[]|e] h1]
  end; cbn in Hs; subst h1; reflexivity.
Qed.

(** C7 as stated fails: with the four default pins and rows of width two
    construction returns a driver. *)
Lemma C7_mismatched_width_constructs :
  fst (construct noFault mismatched [])
  = Normal (mkStepperMotor gpiochip4 [17; 18; 27; 22]
              [line17; line18; line27; line22] [[1; 0]; [0; 1]] 0) /\
  ~ (exists e, fst (construct noFault mismatched []) = Throw e).
Proof.
  split; [reflexivity|].
  intros [e He]. discriminate He.
Qed.

(** ** Teardown *)

Lemma claimed_after_releases l ls :
  In l ls ->
  forall lg, claimed l (lg ++ map Release ls) = false.
Proof.
  intros Hin lg. unfold claimed. rewrite fold_left_app.
  generalize (fold_left
                (fun acc ef =>
                   match ef with
                   | RequestOutputMode l' _ _ => if Line_eqb l l' then true else acc
                   | Release l' => if Line_eqb l l' then false else acc
                   | _ => acc
                   end) lg false) as acc.
  induction ls as [|x rest IH]; intros acc; [contradiction|].
  cbn [map fold_left].
  destruct (Line_eqb l x) eqn:E.
  - clear IH Hin. generalize rest. clear rest.
    induction rest as [|y rest IH]; [reflexivity|].
    cbn [map fold_left]. destruct (Line_eqb l y); exact IH.
  - destruct Hin as [->|Hin].
    + rewrite Line_eqb_refl in E. discriminate.
    + apply IH. exact Hin.
Qed.

(** C9: [delete] releases the lines in order and does nothing else (it
    writes no value, so it does not run [cleanup]).  It resolves exactly
    when every line was released, and then no line of the driver is
    claimed any more; when a release throws, the releases before it were
    done and the promise is rejected with the error thrown. *)
Theorem C9_delete_releases_or_rejects (p : Provider) (h : Heap) :
  exists k,
    snd (delete p h)
    = mkHeap (this h) (log h ++ map Release (firstn k (gpioLines (this h)))) /\
    (forall i l, (i < k)%nat -> nth_error (gpioLines (this h)) i = Some l ->
       p (log h ++ map Release (firstn i (gpioLines (this h)))) (Release l) = None) /\
    match fst (delete p h) with
    | Resolved _ =>
        k = List.length (gpioLines (this h)) /\
        forall l, In l (gpioLines (this h)) ->
                  claimed l (log (snd (delete p h))) = false
    | Rejected e =>
        exists l, nth_error (gpioLines (this h)) k = Some l /\
                  p (log (snd (delete p h))) (Release l) = Some e
    | Uncaught _ => False
    end.
Proof.
  unfold delete, async_each.
  destruct (forEach_gpio_spec p Release (gpioLines (this h)) h)
    as [k [Hs [Hok Hr]]].
  exists k.
  destruct (forEach (gpioLines (this h)) (fun l => gpio p (Release l)) h)
    as [[[]|e] h']; cbn in Hs, Hr |- *.
  - subst h' k. rewrite firstn_all. cbn.
    repeat split; auto.
    intros l Hin. apply claimed_after_releases. exact Hin.
  - subst h'. cbn. auto.
Qed.

(** ** The step counter *)

Lemma nextCounter_forward c :
  0 <= c -> nextCounter false c = (c + 1) mod 8.
Proof.
  intros Hc. unfold nextCounter. apply Z.rem_mod_nonneg; lia.
Qed.

Lemma nextCounter_backward c :
  0 <= c -> nextCounter true c = (c - 1) mod 8.
Proof.
  intros Hc. unfold nextCounter. rewrite Z.rem_mod_nonneg by lia.
  replace (c - 1 + 8) with (c - 1 + 1 * 8) by lia.
  apply Z_mod_plus_full.
Qed.

Lemma iter_nextCounter_forward n c :
  0 <= c < 8 ->
  Nat.iter n (nextCounter false) c = (c + Z.of_nat n) mod 8.
Proof.
  intros Hc. induction n as [|n IH].
  - cbn. rewrite Z.add_0_r, Z.mod_small; lia.
  - rewrite Nat.iter_succ, IH, nextCounter_forward
      by (apply Z.mod_pos_bound; lia).
    rewrite Z.add_mod_idemp_l by lia.
    f_equal. lia.
Qed.

Lemma iter_nextCounter_backward n c :
  0 <= c < 8 ->
  Nat.iter n (nextCounter true) c = (c - Z.of_nat n) mod 8.
Proof.
  intros Hc. induction n as [|n IH].
  - cbn. rewrite Z.sub_0_r, Z.mod_small; lia.
  - rewrite Nat.iter_succ, IH, nextCounter_backward
      by (apply Z.mod_pos_bound; lia).
    rewrite <- Z.add_opp_r, Z.add_mod_idemp_l by lia.
    f_equal. lia.
Qed.

Section Advances.

Variable p : Provider.

Lemma forEach_this {A} (body : A -> JS Heap unit) :
  (forall x h, this (snd (body x h)) = this h) ->
  forall xs h, this (snd (forEach xs body h)) = this h.
Proof.
  intros Hb. induction xs as [|x rest IH]; intros h.
  - reflexivity.
  - cbn [forEach]. unfold bind.
    specialize (Hb x h).
    destruct (body x h) as [[[]|e] h1]; cbn in Hb |- *.
    + rewrite IH. exact Hb.
    + exact Hb.
Qed.

Lemma writePin_this pin h : this (snd (writePin p pin h)) = this h.
Proof.
  unfold writePin.
  destruct (nth_error (gpioLines (this h)) pin); [|reflexivity].
  destruct (jsIndex (stepSequence (this h)) (motorStepCounter (this h)));
    [|reflexivity].
  unfold gpio, call. destruct (p (log h) _); reflexivity.
Qed.

Lemma writeRow_this h : this (snd (writeRow p h)) = this h.
Proof.
  unfold writeRow, async_each. apply forEach_this. apply writePin_this.
Qed.

(** An advance that completes has moved the counter by one application
    of [nextCounter]; one that throws has not moved it. *)
Lemma advance_counter dir ms h :
  motorStepCounter (this (snd (advance p dir ms h)))
  = match fst (advance p dir ms h) with
    | Normal _ => nextCounter dir (motorStepCounter (this h))
    | Throw _ => motorStepCounter (this h)
    end.
Proof.
  unfold advance, bind.
  pose proof (writeRow_this h) as Hw.
  destruct (writeRow p h) as [[[]|e] h1]; cbn in Hw |- *; rewrite Hw; reflexivity.
Qed.

(** A series that resolves has applied [nextCounter] once per element. *)
Lemma async_eachSeries_resolved_counter dir ms (ok : string) :
  forall n fr h r,
    fst (async_eachSeries n fr (advance p dir ms) (cleanup p) ok h) = Resolved r ->
    motorStepCounter
      (this (snd (async_eachSeries n fr (advance p dir ms) (cleanup p) ok h)))
    = Nat.iter n (nextCounter dir) (motorStepCounter (this h)).
Proof.
  induction n as [|n IH]; intros fr h r Hr; cbn [async_eachSeries] in Hr |- *.
  - pose proof (cleanup_this p h) as Hc.
    destruct (cleanup p h) as [[[]|e] h1]; cbn in Hc |- *; rewrite Hc; reflexivity.
  - rewrite Nat.iter_succ_r.
    pose proof (advance_counter dir ms h) as Ha.
    destruct (advance p dir ms h) as [[[]|e] h1]; cbn in Ha.
    + rewrite (IH _ _ _ Hr), Ha. reflexivity.
    + destruct fr; discriminate Hr.
Qed.

(** On the counter range of the default table the law of the
    specification holds with modulus 8, whatever the length of the step
    sequence the driver was given. *)
Lemma move_resolved_counter_mod8 n dir ms h r :
  0 <= n < 2 ^ 32 ->
  0 <= motorStepCounter (this h) < 8 ->
  fst (move p (mkMoveConfig (Some n) (Some dir) ms) h) = Resolved r ->
  motorStepCounter (this (snd (move p (mkMoveConfig (Some n) (Some dir) ms) h)))
  = if dir
    then (motorStepCounter (this h) - n) mod 8
    else (motorStepCounter (this h) + n) mod 8.
Proof.
  intros Hn Hc. unfold move. cbn [stepCount direction orDefault].
  rewrite arrayFromLength_small by exact Hn.
  intros Hr. rewrite (async_eachSeries_resolved_counter _ _ _ _ _ _ _ Hr).
  destruct dir.
  - rewrite iter_nextCounter_backward by exact Hc. rewrite Z2Nat.id; lia.
  - rewrite iter_nextCounter_forward by exact Hc. rewrite Z2Nat.id; lia.
Qed.

(** Once the first timer was armed, nothing is left on the stack to turn
    a throw into a rejection. *)
Lemma async_eachSeries_timer_never_rejects {S A}
    (iteratee final : JS S unit) (ok : A) :
  forall n s e,
    fst (async_eachSeries n TimerCallback iteratee final ok s) <> Rejected e.
Proof.
  induction n as [|n IH]; intros s e; cbn [async_eachSeries].
  - destruct (final s) as [[[]|e'] s']; discriminate.
  - destruct (iteratee s) as [[[]|e'] s']; [apply IH | discriminate].
Qed.

(** So a [move] whose first advance completed never rejects, whatever
    throws later. *)
Lemma move_rejects_only_in_first_advance mc h n :
  arrayFromLength (orDefault (stepCount mc) 4096) = Normal (S n) ->
  fst (advance p (orDefault (direction mc) false)
         (orDefault (stepSleep mc) 2) h) = Normal tt ->
  forall e, fst (move p mc h) <> Rejected e.
Proof.
  intros Hn Ha e. unfold move. rewrite Hn. cbn [async_eachSeries].
  destruct (advance p (orDefault (direction mc) false)
              (orDefault (stepSleep mc) 2) h) as [[[]|e1] h1]; cbn in Ha.
  - apply async_eachSeries_timer_never_rejects.
  - discriminate Ha.
Qed.

End Advances.

(** ** De-energized lines *)

Lemma lastWritten_zeroWrites l ls :
  In l ls ->
  forall lg, lastWritten l (lg ++ zeroWrites ls) = Some (VNum 0).
Proof.
  intros Hin lg. unfold lastWritten, zeroWrites. rewrite fold_left_app.
  generalize (fold_left
                (fun acc ef =>
                   match ef with
                   | SetValue l' v => if Line_eqb l l' then Some v else acc
                   | _ => acc
                   end) lg None) as acc.
  induction ls as [|x rest IH]; intros acc; [contradiction|].
  cbn [map fold_left].
  destruct (Line_eqb l x) eqn:E.
  - clear IH Hin. generalize rest. clear rest.
    induction rest as [|y rest IH]; [reflexivity|].
    cbn [map fold_left]. destruct (Line_eqb l y); exact IH.
  - destruct Hin as [->|Hin].
    + rewrite Line_eqb_refl in E. discriminate.
    + apply IH. exact Hin.
Qed.

(** On the path the final callback is reached and [cleanup] completes,
    the claim of the specification holds: a [move] that resolves leaves 0
    as the last value written to every line. *)
Lemma move_resolved_lines_zero (p : Provider) mc h r :
  fst (move p mc h) = Resolved r ->
  forall l, In l (gpioLines (this h)) ->
            lastWritten l (log (snd (move p mc h))) = Some (VNum 0).
Proof.
  unfold move.
  destruct (arrayFromLength (orDefault (stepCount mc) 4096)) as [n|e];
    [|discriminate].
  generalize Executor as fr. revert h.
  induction n as [|n IH]; intros h fr Hr l Hin; cbn [async_eachSeries] in Hr |- *.
  - pose proof (cleanup_completes p h) as Hc.
    destruct (cleanup p h) as [[[]|e] h1]; cbn in Hc, Hr |- *.
    + rewrite (Hc eq_refl). cbn. apply lastWritten_zeroWrites. exact Hin.
    + destruct fr; discriminate Hr.
  - pose proof (advance_movesOnly p (orDefault (direction mc) false)
                  (orDefault (stepSleep mc) 2) h) as Hm.
    destruct (advance p (orDefault (direction mc) false)
                (orDefault (stepSleep mc) 2) h) as [[[]|e] h1];
      cbn in Hm, Hr |- *.
    + apply (IH h1 TimerCallback Hr).
      destruct Hm as [[_ [_ [Hl _]]] _]. rewrite Hl. exact Hin.
    + destruct fr; discriminate Hr.
Qed.

(** Scenario A of the specification, as a check of the embedding: eight
    forward advances on the default driver write the eight rows of the
    default table in order, then [cleanup] zeroes the four lines and the
    promise resolves; the counter is back at 0. *)
Example scenarioA_default_eight_steps :
  constructThenMove noFault Config.empty
    (mkMoveConfig (Some 8) (Some false) (Some 0))
  = Some (Resolved "Success",
          mkHeap (defaultDriver 0)
            (defaultBoot
               ++ List.concat (map (fun row =>
                                 advanceLog (gpioLines (defaultDriver 0)) row 0)
                              defaultStepSequence)
               ++ zeroWrites (gpioLines (defaultDriver 0)))).
Proof.
  reflexivity.
Qed.

(** ** Where the code departs from the specification *)

(** C1: the counter wraps at the constant 8, not at the length of the
    step sequence.  On the two-row sequence of scenario B one forward
    advance from row 1 gives 2, and after two forward advances from 0 the
    move resolves with the counter at 2, where the claim has
    [(0 + 2) mod 2 = 0]. *)
Theorem C1_counter_wraps_at_8_not_at_length :
  nextCounter false 1 = 2 /\
  constructThenMove noFault scenarioB (steps 2 false)
  = Some (Resolved "Success",
          mkHeap (driverB 2)
            (bootB ++ advanceLog [line17; line18] [1; 0] 2
                   ++ advanceLog [line17; line18] [0; 1] 2
                   ++ zeroWrites [line17; line18])) /\
  2 <> (0 + 2) mod Z.of_nat (List.length (stepSequence (driverB 2))).
Proof.
  repeat split. discriminate.
Qed.

(** C2: a write that throws during the first advance unwinds through
    async into the promise executor: the promise is rejected and the
    final callback, hence [cleanup], never runs.  Here the write to the
    second line throws; the first line stays at the 1 of row 0. *)
Theorem C2_throw_in_first_advance_skips_cleanup :
  constructThenMove (failWriteAfter 1) Config.empty (steps 1 false)
  = Some (Rejected (GpioError "::setValue() failed"),
          mkHeap (defaultDriver 0) (defaultBoot ++ [SetValue line17 (VNum 1)])) /\
  lastWritten line17 (defaultBoot ++ [SetValue line17 (VNum 1)])
  = Some (VNum 1).
Proof.
  split; reflexivity.
Qed.

(** C3: scenario B.  Rows 0 and 1 are driven; the counter is then 2, the
    third advance reads [stepSequence[2]], which is undefined, and throws
    inside a timer callback: the promise never settles, the counter stays
    at 2 and [cleanup] does not run. *)
Theorem C3_scenarioB_third_advance_throws :
  constructThenMove noFault scenarioB (steps 3 false)
  = Some (Uncaught (TypeError "Cannot read properties of undefined"),
          mkHeap (driverB 2)
            (bootB ++ advanceLog [line17; line18] [1; 0] 2
                   ++ advanceLog [line17; line18] [0; 1] 2)).
Proof.
  reflexivity.
Qed.

(** C6: scenario D.  The first write of the fifth advance throws.  The
    counter shows the four completed advances, but the throw happens in
    a timer callback: the promise is not rejected, [cleanup] does not
    run, and line 18 stays at the 1 of row 3. *)
Theorem C6_throw_in_fifth_advance_is_uncaught :
  constructThenMove (failWriteAfter 16) Config.empty (steps 10 false)
  = Some (Uncaught (GpioError "::setValue() failed"),
          mkHeap (defaultDriver 4)
            (defaultBoot
               ++ advanceLog (gpioLines (defaultDriver 0)) [1; 0; 0; 1] 2
               ++ advanceLog (gpioLines (defaultDriver 0)) [1; 0; 0; 0] 2
               ++ advanceLog (gpioLines (defaultDriver 0)) [1; 1; 0; 0] 2
               ++ advanceLog (gpioLines (defaultDriver 0)) [0; 1; 0; 0] 2)) /\
  lastWritten line18
    (defaultBoot
       ++ advanceLog (gpioLines (defaultDriver 0)) [1; 0; 0; 1] 2
       ++ advanceLog (gpioLines (defaultDriver 0)) [1; 0; 0; 0] 2
       ++ advanceLog (gpioLines (defaultDriver 0)) [1; 1; 0; 0] 2
       ++ advanceLog (gpioLines (defaultDriver 0)) [0; 1; 0; 0] 2)
  = Some (VNum 1).
Proof.
  split; reflexivity.
Qed.

(** * Further properties of the driver *)

(** ** Reading the log *)

Lemma lastWritten_app l a b :
  lastWritten l (a ++ b)
  = match lastWritten l b with
    | Some v => Some v
    | None => lastWritten l a
    end.
Proof.
  unfold lastWritten. rewrite fold_left_app.
  generalize (fold_left
                (fun acc ef =>
                   match ef with
                   | SetValue l' v => if Line_eqb l l' then Some v else acc
                   | _ => acc
                   end) a None) as acc.
  assert (Hsome : forall evs v,
             exists w,
               fold_left
                 (fun acc ef =>
                    match ef with
                    | SetValue l' v => if Line_eqb l l' then Some v else acc
                    | _ => acc
                    end) evs (Some v) = Some w).
  { intros evs. induction evs as [|x evs IH]; intros v; [exists v; reflexivity|].
    cbn [fold_left]. destruct x as [ | | |l0 v0| | ]; auto.
    destruct (Line_eqb l l0); auto. }
  induction b as [|x b IH]; intros acc.
  - reflexivity.
  - cbn [fold_left].
    destruct x as [ | | |l0 v0| | ]; try apply IH.
    destruct (Line_eqb l l0); [|apply IH].
    destruct (Hsome b v0) as [w Hw]. rewrite Hw. reflexivity.
Qed.

Lemma lastWritten_zeros l ls :
  lastWritten l (zeroWrites ls)
  = if existsb (Line_eqb l) ls then Some (VNum 0) else None.
Proof.
  induction ls as [|x rest IH]; [reflexivity|].
  change (zeroWrites (x :: rest))
    with ([SetValue x (VNum 0)] ++ zeroWrites rest).
  rewrite lastWritten_app, IH. cbn [existsb].
  unfold lastWritten. cbn [fold_left].
  destruct (existsb (Line_eqb l) rest); [rewrite orb_true_r; reflexivity|].
  rewrite orb_false_r. reflexivity.
Qed.

(** Events that neither request nor release a line leave every claim as
    it was. *)
Lemma claimed_app_moves l lines evs :
  Forall (moveEffect lines) evs ->
  forall lg, claimed l (lg ++ evs) = claimed l lg.
Proof.
  intros Hf lg. unfold claimed. rewrite fold_left_app.
  generalize (fold_left
                (fun acc ef =>
                   match ef with
                   | RequestOutputMode l' _ _ => if Line_eqb l l' then true else acc
                   | Release l' => if Line_eqb l l' then false else acc
                   | _ => acc
                   end) lg false) as acc.
  induction Hf as [|ef evs Hef _ IH]; intros acc; [reflexivity|].
  cbn [fold_left]. destruct ef; cbn in Hef; try contradiction; apply IH.
Qed.


(** ** [cleanup] *)

(** X1: a [cleanup] that completes leaves 0 as the last value written to
    every line of the driver and does not touch the last value of any
    other line. *)
Theorem cleanup_zeroes_exactly_the_lines (p : Provider) (h : Heap) :
  fst (cleanup p h) = Normal tt ->
  forall l,
    lastWritten l (log (snd (cleanup p h)))
    = if existsb (Line_eqb l) (gpioLines (this h))
      then Some (VNum 0)
      else lastWritten l (log h).
Proof.
  intros Hc l. rewrite (cleanup_completes p h Hc). cbn [log].
  rewrite lastWritten_app, lastWritten_zeros.
  destruct (existsb (Line_eqb l) (gpioLines (this h))); reflexivity.
Qed.

Lemma cleanup_zeroes_exactly_the_lines_witness :
  fst (cleanup noFault parked) = Normal tt /\
  lastWritten line27 (log (snd (cleanup noFault parked))) = Some (VNum 0) /\
  lastWritten (mkLine gpiochip4 4) (log (snd (cleanup noFault parked))) = None.
Proof.
  split; [reflexivity|]. split.
  - apply (cleanup_zeroes_exactly_the_lines noFault parked eq_refl line27).
  - apply (cleanup_zeroes_exactly_the_lines noFault parked eq_refl
             (mkLine gpiochip4 4)).
Defined.

(** X2: [cleanup] is idempotent on what the lines show: when two calls in
    a row both complete, the last value written to any line is after the
    second call what it was after the first, and the object is
    unchanged. *)
Theorem cleanup_twice_as_once (p : Provider) (h : Heap) :
  fst (cleanup p h) = Normal tt ->
  fst (cleanup p (snd (cleanup p h))) = Normal tt ->
  this (snd (cleanup p (snd (cleanup p h)))) = this h /\
  forall l,
    lastWritten l (log (snd (cleanup p (snd (cleanup p h)))))
    = lastWritten l (log (snd (cleanup p h))).
Proof.
  intros H1 H2. split.
  - rewrite !cleanup_this. reflexivity.
  - intros l.
    rewrite (cleanup_completes p _ H2), cleanup_this. cbn [log].
    rewrite lastWritten_app, lastWritten_zeros.
    rewrite (cleanup_completes p h H1). cbn [log].
    rewrite lastWritten_app, lastWritten_zeros.
    destruct (existsb (Line_eqb l) (gpioLines (this h))); reflexivity.
Qed.

Lemma cleanup_twice_as_once_witness :
  fst (cleanup noFault parked) = Normal tt /\
  fst (cleanup noFault (snd (cleanup noFault parked))) = Normal tt /\
  lastWritten line17 (log (snd (cleanup noFault (snd (cleanup noFault parked)))))
  = lastWritten line17 (log (snd (cleanup noFault parked))).
Proof.
  split; [reflexivity|]. split; [reflexivity|].
  apply (proj2 (cleanup_twice_as_once noFault parked eq_refl eq_refl) line17).
Defined.

(** X3: a [cleanup] stopped by a throwing write has zeroed the lines
    before the one that threw, in order, and nothing else; it throws the
    provider's error and the lines after are not written. *)
Theorem cleanup_stops_at_first_throw (p : Provider) (h : Heap) (e : Error) :
  fst (cleanup p h) = Throw e ->
  exists k l,
    nth_error (gpioLines (this h)) k = Some l /\
    snd (cleanup p h)
    = mkHeap (this h) (log h ++ zeroWrites (firstn k (gpioLines (this h)))) /\
    p (log (snd (cleanup p h))) (SetValue l (VNum 0)) = Some e.
Proof.
  unfold cleanup, zeroWrites. intros Ht.
  destruct (forEach_gpio_spec p (fun l => SetValue l (VNum 0))
              (gpioLines (this h)) h) as [k [Hs [_ Hr]]].
  rewrite Ht in Hr. destruct Hr as [l [Hn Hp]].
  exists k, l. rewrite Hs. cbn [log]. auto.
Qed.

Lemma cleanup_stops_at_first_throw_witness :
  fst (cleanup (deadPin 27) parked) = Throw (GpioError "::setValue() failed") /\
  exists k l,
    nth_error (gpioLines (this parked)) k = Some l /\
    snd (cleanup (deadPin 27) parked)
    = mkHeap (this parked)
        (log parked ++ zeroWrites (firstn k (gpioLines (this parked)))) /\
    deadPin 27 (log (snd (cleanup (deadPin 27) parked))) (SetValue l (VNum 0))
    = Some (GpioError "::setValue() failed").
Proof.
  split; [reflexivity|].
  apply (cleanup_stops_at_first_throw (deadPin 27) parked). reflexivity.
Defined.

(** ** Ownership of the lines *)

(** X4: neither [move] nor [cleanup] requests or releases a line: whether
    a line is claimed is the same after either call as before, for every
    line and every way the call ends. *)
Theorem move_and_cleanup_keep_claims (p : Provider) (mc : MoveConfig)
    (h : Heap) (l : Line) :
  claimed l (log (snd (move p mc h))) = claimed l (log h) /\
  claimed l (log (snd (cleanup p h))) = claimed l (log h).
Proof.
  split.
  - destruct (move_movesOnly p mc h) as [_ [evs [-> Hf]]].
    eapply claimed_app_moves; eassumption.
  - destruct (cleanup_movesOnly p h) as [_ [evs [-> Hf]]].
    eapply claimed_app_moves; eassumption.
Qed.

(** ** A constructor that throws *)

Section FailedConstruction.

Variable p : Provider.

Lemma mapM_newLine_throws c pns :
  forall lg e lg',
    mapM (newLine p c) pns lg = (Throw e, lg') ->
    exists k pin,
      nth_error pns k = Some pin /\
      lg' = lg ++ map (NewLine c) (firstn k pns) /\
      p lg' (NewLine c pin) = Some e.
Proof.
  induction pns as [|x rest IH]; intros lg e lg' H.
  - discriminate H.
  - cbn [mapM] in H. unfold bind, newLine at 1, call, ret in H.
    unfold bind at 1 in H.
    destruct (p lg (NewLine c x)) as [e0|] eqn:Hp.
    + injection H as <- <-. exists 0%nat, x. cbn.
      rewrite app_nil_r. auto.
    + destruct (mapM (newLine p c) rest (lg ++ [NewLine c x]))
        as [[ys|e1] lg1] eqn:Hm; [discriminate|].
      injection H as <- <-.
      destruct (IH _ _ _ Hm) as [k [pin [Hn [Hl Hq]]]].
      exists (S k), pin. cbn [nth_error firstn map].
      rewrite Hl, <- app_assoc in *. auto.
Qed.

(** The constructor throws in one of three places: opening the chip,
    opening a line, requesting a line. *)
Lemma construct_throw_inv config lg e lg' :
  construct p config lg = (Throw e, lg') ->
  let c := mkChip (orDefault (Config.chipName config) "gpiochip4") in
  let pns := orDefault (Config.pins config) [17; 18; 27; 22] in
  let request :=
    fun l => RequestOutputMode l 0
               (orDefault (Config.consumerName config) "stepper") in
  (lg' = lg /\ p lg (NewChip (chip_name c)) = Some e) \/
  (exists k pin,
      nth_error pns k = Some pin /\
      lg' = lg ++ NewChip (chip_name c) :: map (NewLine c) (firstn k pns) /\
      p lg' (NewLine c pin) = Some e) \/
  (exists k l,
      nth_error (map (mkLine c) pns) k = Some l /\
      lg' = lg ++ NewChip (chip_name c) :: map (NewLine c) pns
               ++ map request (firstn k (map (mkLine c) pns)) /\
      p lg' (request l) = Some e).
Proof.
  intros H c pns request. unfold construct in H.
  fold c in H. fold pns in H.
  unfold bind at 1, newChip, call, ret in H. unfold bind at 1 in H.
  change (orDefault (Config.chipName config) "gpiochip4") with (chip_name c) in H.
  destruct (p lg (NewChip (chip_name c))) as [e0|] eqn:Hchip.
  { injection H as <- <-. left. auto. }
  right. unfold bind at 1 in H.
  change {| chip_name := chip_name c |} with c in H.
  destruct (mapM (newLine p c) pns (lg ++ [NewChip (chip_name c)]))
    as [[ls|e1] lg1] eqn:Hm.
  - right. destruct (mapM_newLine p _ _ _ _ _ Hm) as [-> ->].
    unfold setupPins in H. cbn [this gpioLines log] in H.
    match type of H with
    | context [forEach ?ls ?body ?h0] =>
        destruct (forEach_gpio_spec p
                    (fun l => RequestOutputMode l 0
                       (orDefault (Config.consumerName config) "stepper"))
                    ls h0) as [k [Hs [_ Hr]]];
        destruct (forEach ls body h0) as [[[]|e2] h1]
    end; [discriminate|].
    cbn in Hs, Hr. injection H as <- <-. subst h1. cbn [log] in *.
    destruct Hr as [l [Hn Hp]]. exists k, l.
    rewrite <- !app_assoc in *. cbn [app] in *. auto.
  - left. injection H as <- <-.
    destruct (mapM_newLine_throws _ _ _ _ _ Hm) as [k [pin [Hn [Hl Hp]]]].
    exists k, pin. rewrite Hl, <- app_assoc in *. cbn [app] in *. auto.
Qed.

End FailedConstruction.

(** X5: when the constructor throws, the error is the one the provider
    threw at the call it stopped on, and no line was requested unless the
    chip and every line had been opened first: a chip or a line that
    cannot be opened leaves no line claimed by this constructor. *)
Theorem construct_opens_all_before_requesting (p : Provider)
    (config : Config.t) (lg : list Effect) (e : Error) (lg' : list Effect) :
  construct p config lg = (Throw e, lg') ->
  exists evs ef,
    lg' = lg ++ evs /\ p lg' ef = Some e /\
    match ef with
    | NewChip _ => evs = []
    | NewLine _ _ =>
        forall l v consumer, ~ In (RequestOutputMode l v consumer) evs
    | RequestOutputMode _ _ _ =>
        forall pin,
          In pin (orDefault (Config.pins config) [17; 18; 27; 22]) ->
          In (NewLine (mkChip (orDefault (Config.chipName config) "gpiochip4"))
                pin) evs
    | _ => False
    end.
Proof.
  intros H.
  destruct (construct_throw_inv p _ _ _ _ H)
    as [[-> Hp] | [[k [pin [Hn [-> Hp]]]] | [k [l [Hn [-> Hp]]]]]].
  - exists [], (NewChip (orDefault (Config.chipName config) "gpiochip4")).
    rewrite app_nil_r. auto.
  - eexists. eexists. split; [reflexivity|]. split; [exact Hp|].
    cbn. intros l v consumer [Hin|Hin]; [discriminate|].
    apply in_map_iff in Hin. destruct Hin as [x [Hx _]]. discriminate.
  - eexists. eexists. split; [reflexivity|]. split; [exact Hp|].
    cbn. intros pin Hin. right. apply in_or_app. left.
    apply in_map. exact Hin.
Qed.

Lemma construct_opens_all_before_requesting_witness :
  construct (noSuchChip "gpiochip4") Config.empty []
    = (Throw (GpioError "Unable to open device"), []) /\
  exists evs ef,
    [] = [] ++ evs /\
    noSuchChip "gpiochip4" [] ef = Some (GpioError "Unable to open device") /\
    match ef with
    | NewChip _ => evs = []
    | NewLine _ _ =>
        forall l v consumer, ~ In (RequestOutputMode l v consumer) evs
    | RequestOutputMode _ _ _ =>
        forall pin,
          In pin [17; 18; 27; 22] -> In (NewLine gpiochip4 pin) evs
    | _ => False
    end.
Proof.
  split; [reflexivity|].
  apply (construct_opens_all_before_requesting (noSuchChip "gpiochip4")
           Config.empty [] _ [] eq_refl).
Defined.

(** X6: a constructor that throws releases nothing: every line it had
    requested before the throw is still claimed when the exception
    reaches the caller. *)
Theorem construct_throw_keeps_lines_claimed (p : Provider)
    (config : Config.t) (lg : list Effect) (e : Error) (lg' : list Effect) :
  construct p config lg = (Throw e, lg') ->
  exists evs,
    lg' = lg ++ evs /\
    (forall l, ~ In (Release l) evs) /\
    (forall l v consumer,
        In (RequestOutputMode l v consumer) evs -> claimed l lg' = true).
Proof.
  intros H.
  destruct (construct_throw_inv p _ _ _ _ H)
    as [[-> Hp] | [[k [pin [Hn [-> Hp]]]] | [k [l [Hn [-> Hp]]]]]].
  - exists []. rewrite app_nil_r. split; [reflexivity|].
    split; [intros l0 [] | intros l0 v consumer []].
  - eexists. split; [reflexivity|]. split.
    + intros l [Hin|Hin]; [discriminate|].
      apply in_map_iff in Hin. destruct Hin as [x [Hx _]]. discriminate.
    + intros l v consumer [Hin|Hin]; [discriminate|].
      apply in_map_iff in Hin. destruct Hin as [x [Hx _]]. discriminate.
  - eexists. split; [reflexivity|]. split.
    + intros l0 [Hin|Hin]; [discriminate|].
      apply in_app_or in Hin. destruct Hin as [Hin|Hin];
        apply in_map_iff in Hin; destruct Hin as [x [Hx _]]; discriminate.
    + intros l0 v consumer [Hin|Hin]; [discriminate|].
      apply in_app_or in Hin. destruct Hin as [Hin|Hin].
      * apply in_map_iff in Hin. destruct Hin as [x [Hx _]]. discriminate.
      * apply in_map_iff in Hin. destruct Hin as [x [Hx Hin]].
        injection Hx as -> _ _.
        change (?a ++ ?x :: ?b ++ ?c) with (a ++ (x :: b) ++ c).
        rewrite app_assoc. apply claimed_after_requests. exact Hin.
Qed.

Lemma construct_throw_keeps_lines_claimed_witness :
  construct (busyOn 27) Config.empty []
  = (Throw (GpioError "Resource busy"),
     firstn 5 defaultBoot
     ++ [RequestOutputMode line17 0 "stepper";
         RequestOutputMode line18 0 "stepper"]) /\
  claimed line18
    (firstn 5 defaultBoot
     ++ [RequestOutputMode line17 0 "stepper";
         RequestOutputMode line18 0 "stepper"]) = true.
Proof.
  split; [reflexivity|].
  destruct (construct_throw_keeps_lines_claimed (busyOn 27) Config.empty []
              (GpioError "Resource busy")
              (firstn 5 defaultBoot
               ++ [RequestOutputMode line17 0 "stepper";
                   RequestOutputMode line18 0 "stepper"])
              eq_refl) as [evs [Hl [_ Hc]]].
  apply (Hc line18 0 "stepper").
  cbn in Hl. subst evs. cbn. auto 10.
Defined.

(** ** The shape of a [move] *)

Section Series.

Variable p : Provider.

Lemma timerDelays_app a b : timerDelays (a ++ b) = timerDelays a ++ timerDelays b.
Proof. unfold timerDelays. apply flat_map_app. Qed.

Lemma timerDelays_writes evs :
  Forall (fun ef => isWrite ef = true) evs -> timerDelays evs = [].
Proof.
  induction 1 as [|ef evs Hef _ IH]; [reflexivity|].
  destruct ef; try discriminate Hef. exact IH.
Qed.

(** [h'] is [h] after writes only. *)
Lemma gpio_write_writes l v h :
  exists evs,
    snd (gpio p (SetValue l v) h) = mkHeap (this h) (log h ++ evs) /\
    Forall (fun ef => isWrite ef = true) evs.
Proof.
  unfold gpio, call. destruct (p (log h) (SetValue l v)); cbn.
  - exists []. rewrite app_nil_r. auto.
  - exists [SetValue l v]. auto.
Qed.

Lemma writePin_writes pin h :
  exists evs,
    snd (writePin p pin h) = mkHeap (this h) (log h ++ evs) /\
    Forall (fun ef => isWrite ef = true) evs.
Proof.
  unfold writePin.
  destruct (nth_error (gpioLines (this h)) pin);
    [|exists []; rewrite app_nil_r, heap_eta; auto].
  destruct (jsIndex (stepSequence (this h)) (motorStepCounter (this h)));
    [|exists []; rewrite app_nil_r, heap_eta; auto].
  apply gpio_write_writes.
Qed.

Lemma forEach_writes {A} (body : A -> JS Heap unit) :
  (forall x h, exists evs,
      snd (body x h) = mkHeap (this h) (log h ++ evs) /\
      Forall (fun ef => isWrite ef = true) evs) ->
  forall xs h, exists evs,
      snd (forEach xs body h) = mkHeap (this h) (log h ++ evs) /\
      Forall (fun ef => isWrite ef = true) evs.
Proof.
  intros Hb. induction xs as [|x rest IH]; intros h.
  - exists []. cbn. rewrite app_nil_r, heap_eta. auto.
  - cbn [forEach]. unfold bind.
    destruct (Hb x h) as [e1 [H1 F1]].
    destruct (body x h) as [[[]|e] h1]; cbn in H1 |- *.
    + destruct (IH h1) as [e2 [H2 F2]]. exists (e1 ++ e2).
      rewrite H2, H1. cbn. rewrite app_assoc. split; [reflexivity|].
      apply Forall_app. auto.
    + exists e1. auto.
Qed.

Lemma writeRow_writes h :
  exists evs,
    snd (writeRow p h) = mkHeap (this h) (log h ++ evs) /\
    Forall (fun ef => isWrite ef = true) evs.
Proof.
  unfold writeRow, async_each. apply forEach_writes. apply writePin_writes.
Qed.

Lemma cleanup_writes h :
  exists evs,
    snd (cleanup p h) = mkHeap (this h) (log h ++ evs) /\
    Forall (fun ef => isWrite ef = true) evs.
Proof.
  unfold cleanup. apply forEach_writes. intros l h0. apply gpio_write_writes.
Qed.

(** An advance either throws while writing, with no timer armed and the
    counter where it was, or completes with one timer armed and the
    counter moved once. *)
Lemma advance_shape dir ms h :
  match fst (advance p dir ms h) with
  | Normal _ =>
      timerDelays (log (snd (advance p dir ms h))) = timerDelays (log h) ++ [ms] /\
      motorStepCounter (this (snd (advance p dir ms h)))
      = nextCounter dir (motorStepCounter (this h))
  | Throw _ =>
      timerDelays (log (snd (advance p dir ms h))) = timerDelays (log h) /\
      motorStepCounter (this (snd (advance p dir ms h)))
      = motorStepCounter (this h)
  end.
Proof.
  unfold advance, bind.
  destruct (writeRow_writes h) as [evs [Hs Hf]].
  destruct (writeRow p h) as [[[]|e] h1]; cbn in Hs |- *; subst h1; cbn.
  - rewrite !timerDelays_app, (timerDelays_writes _ Hf), app_nil_r. auto.
  - rewrite timerDelays_app, (timerDelays_writes _ Hf), app_nil_r. auto.
Qed.

(** The series of [move]: [k] advances completed.  The counter moved [k]
    times and [k] timers were armed, all with the same delay; resolving
    takes all [n] advances; a rejection can only happen before the first
    timer, an uncaught exception only after it. *)
Lemma series_shape dir ms (ok : string) :
  forall n fr h,
  exists k,
    (k <= n)%nat /\
    timerDelays (log (snd (async_eachSeries n fr (advance p dir ms) (cleanup p) ok h)))
    = timerDelays (log h) ++ repeat ms k /\
    motorStepCounter
      (this (snd (async_eachSeries n fr (advance p dir ms) (cleanup p) ok h)))
    = Nat.iter k (nextCounter dir) (motorStepCounter (this h)) /\
    match fst (async_eachSeries n fr (advance p dir ms) (cleanup p) ok h) with
    | Resolved _ => k = n
    | Rejected _ => k = 0%nat /\ fr = Executor
    | Uncaught _ => (0 < k)%nat \/ fr = TimerCallback
    end.
Proof.
  induction n as [|n IH]; intros fr h; cbn [async_eachSeries].
  - exists 0%nat. split; [lia|].
    destruct (cleanup_writes h) as [evs [Hs Hf]].
    destruct (cleanup p h) as [[[]|e] h1]; cbn in Hs |- *; subst h1; cbn;
      rewrite timerDelays_app, (timerDelays_writes _ Hf), !app_nil_r;
      repeat split; auto.
    destruct fr; cbn; auto.
  - pose proof (advance_shape dir ms h) as Ha.
    destruct (advance p dir ms h) as [[[]|e] h1]; cbn in Ha |- *.
    + destruct Ha as [Ht Hc].
      destruct (IH TimerCallback h1) as [k [Hk [Ht' [Hc' Ho]]]].
      exists (S k). split; [lia|]. rewrite Ht', Ht, Hc', Hc.
      split; [rewrite <- app_assoc; reflexivity|].
      split; [rewrite Nat.iter_succ_r; reflexivity|].
      destruct (fst (async_eachSeries n TimerCallback (advance p dir ms)
                       (cleanup p) ok h1)).
      * lia.
      * destruct Ho as [_ Ho]. discriminate Ho.
      * left. lia.
    + destruct Ha as [Ht Hc]. exists 0%nat. split; [lia|].
      rewrite Ht, Hc, app_nil_r. repeat split.
      destruct fr; cbn; auto.
Qed.

End Series.


(** X8: a [move] whose promise is rejected has armed no timer and has
    not moved the step counter; one that ends in an uncaught exception
    has armed at least one timer. *)
Theorem move_rejects_before_first_timer (p : Provider) (mc : MoveConfig)
    (h : Heap) :
  match fst (move p mc h) with
  | Resolved _ => True
  | Rejected _ =>
      timerDelays (log (snd (move p mc h))) = timerDelays (log h) /\
      motorStepCounter (this (snd (move p mc h))) = motorStepCounter (this h)
  | Uncaught _ =>
      exists k,
        timerDelays (log (snd (move p mc h)))
        = timerDelays (log h) ++ repeat (orDefault (stepSleep mc) 2) (S k)
  end.
Proof.
  unfold move.
  destruct (arrayFromLength (orDefault (stepCount mc) 4096)) as [n|e0].
  - destruct (series_shape p (orDefault (direction mc) false)
                (orDefault (stepSleep mc) 2) "Success" n Executor h)
      as [k [_ [Ht [Hc Ho]]]].
    destruct (fst (async_eachSeries n Executor _ _ _ h)).
    + exact I.
    + destruct Ho as [-> _]. cbn in Ht, Hc. rewrite app_nil_r in Ht. auto.
    + destruct Ho as [Hk|Hk]; [|discriminate Hk].
      destruct k as [|k]; [lia|]. exists k. exact Ht.
  - cbn. auto.
Qed.

(** ** The counter stays on the default table *)

Lemma nextCounter_range dir c : 0 <= c < 8 -> 0 <= nextCounter dir c < 8.
Proof.
  intros Hc. destruct dir.
  - rewrite nextCounter_backward by lia. apply Z.mod_pos_bound. lia.
  - rewrite nextCounter_forward by lia. apply Z.mod_pos_bound. lia.
Qed.

Lemma iter_nextCounter_range dir k c :
  0 <= c < 8 -> 0 <= Nat.iter k (nextCounter dir) c < 8.
Proof.
  intros Hc. induction k as [|k IH]; [exact Hc|].
  rewrite Nat.iter_succ. apply nextCounter_range. exact IH.
Qed.

(** X9: a counter that is a row index of an eight-row table before a
    [move] is one after it, however the [move] ends. *)
Theorem move_keeps_counter_in_range (p : Provider) (mc : MoveConfig)
    (h : Heap) :
  0 <= motorStepCounter (this h) < 8 ->
  0 <= motorStepCounter (this (snd (move p mc h))) < 8.
Proof.
  intros Hc. unfold move.
  destruct (arrayFromLength (orDefault (stepCount mc) 4096)) as [n|e0].
  - destruct (series_shape p (orDefault (direction mc) false)
                (orDefault (stepSleep mc) 2) "Success" n Executor h)
      as [k [_ [_ [Hk _]]]].
    rewrite Hk. apply iter_nextCounter_range. exact Hc.
  - exact Hc.
Qed.

Lemma move_keeps_counter_in_range_witness :
  0 <= motorStepCounter (this parked) < 8 /\
  0 <= motorStepCounter (this (snd (move (deadPin 27) (steps 5 true) parked))) < 8.
Proof.
  split; [cbn; lia|].
  apply (move_keeps_counter_in_range (deadPin 27) (steps 5 true) parked).
  cbn. lia.
Defined.

(** ** A provider that accepts every write *)

Section Accepting.

Variable p : Provider.
Hypothesis Hacc : acceptsWrites p.

Lemma forEach_writePin_accepts row :
  forall ls pre h,
    gpioLines (this h) = pre ++ ls ->
    jsIndex (stepSequence (this h)) (motorStepCounter (this h)) = Some row ->
    forEach (seq (List.length pre) (List.length ls)) (writePin p) h
    = (Normal tt,
       mkHeap (this h) (log h ++ rowWritesFrom (List.length pre) ls row)).
Proof.
  induction ls as [|l rest IH]; intros pre h Hl Hrow.
  - cbn. rewrite app_nil_r, heap_eta. reflexivity.
  - cbn [List.length seq forEach rowWritesFrom]. unfold bind, writePin at 1.
    rewrite Hl, nth_error_app2, Nat.sub_diag by lia. cbn [nth_error].
    rewrite Hrow. unfold gpio, call. rewrite Hacc.
    specialize (IH (pre ++ [l])
                  (mkHeap (this h)
                     (log h ++ [SetValue l (jsElement row (List.length pre))]))).
    rewrite length_app, Nat.add_1_r in IH. cbn [this log List.length] in IH.
    rewrite IH.
    + rewrite <- app_assoc. reflexivity.
    + rewrite Hl, <- app_assoc. reflexivity.
    + exact Hrow.
Qed.

(** With a row under the counter, the first waterfall task writes
    column [i] of the row to line [i], for every line, in order. *)
Lemma writeRow_accepts h row :
  jsIndex (stepSequence (this h)) (motorStepCounter (this h)) = Some row ->
  writeRow p h
  = (Normal tt, mkHeap (this h) (log h ++ rowWrites (gpioLines (this h)) row)).
Proof.
  intros Hrow. unfold writeRow, async_each, rowWrites.
  apply (forEach_writePin_accepts row (gpioLines (this h)) [] h);
    [reflexivity | exact Hrow].
Qed.

Lemma cleanup_accepts h : fst (cleanup p h) = Normal tt.
Proof.
  unfold cleanup.
  destruct (forEach_gpio_spec p (fun l => SetValue l (VNum 0))
              (gpioLines (this h)) h) as [k [_ [_ Hr]]].
  destruct (fst (forEach (gpioLines (this h))
                   (fun line => gpio p (SetValue line (VNum 0))) h))
    as [[]|e]; [reflexivity|].
  destruct Hr as [l [_ Hp]]. rewrite Hacc in Hp. discriminate Hp.
Qed.

Lemma jsIndex_in_table {A} (xs : list A) c :
  0 <= c < Z.of_nat (List.length xs) -> exists x, jsIndex xs c = Some x.
Proof.
  intros Hc. unfold jsIndex.
  destruct (c <? 0) eqn:E; [apply Z.ltb_lt in E; lia|].
  destruct (nth_error xs (Z.to_nat c)) as [x|] eqn:Hn; [eauto|].
  apply nth_error_None in Hn. lia.
Qed.

Lemma series_resolves dir ms (ok : string) :
  forall n fr h,
    (8 <= List.length (stepSequence (this h)))%nat ->
    0 <= motorStepCounter (this h) < 8 ->
    fst (async_eachSeries n fr (advance p dir ms) (cleanup p) ok h) = Resolved ok.
Proof.
  induction n as [|n IH]; intros fr h Hlen Hc; cbn [async_eachSeries].
  - pose proof (cleanup_accepts h) as Hk.
    destruct (cleanup p h) as [[[]|e] h1]; [reflexivity | discriminate Hk].
  - destruct (jsIndex_in_table (stepSequence (this h))
                (motorStepCounter (this h))) as [row Hrow]; [lia|].
    unfold advance, bind. rewrite (writeRow_accepts h row Hrow).
    unfold stepCounter, setTimeout. cbn [this log].
    apply IH; cbn.
    + exact Hlen.
    + apply nextCounter_range. exact Hc.
Qed.

End Accepting.

(** X10: on a table of at least eight rows, with the counter on one of
    the first eight and a provider that accepts every write, a [move] of
    any number of steps below [2^32] resolves with "Success". *)
Theorem move_resolves_on_eight_rows (p : Provider) (n : Z) dir ms (h : Heap) :
  acceptsWrites p ->
  (8 <= List.length (stepSequence (this h)))%nat ->
  0 <= motorStepCounter (this h) < 8 ->
  n < 2 ^ 32 ->
  fst (move p (mkMoveConfig (Some n) dir ms) h) = Resolved "Success".
Proof.
  intros Hacc Hlen Hc Hn. unfold move. cbn [stepCount orDefault].
  destruct (Z_le_gt_dec n 0) as [Hle|Hgt].
  - rewrite arrayFromLength_nonpos by exact Hle.
    apply series_resolves; assumption.
  - rewrite arrayFromLength_small by lia.
    apply series_resolves; assumption.
Qed.

Lemma move_resolves_on_eight_rows_witness :
  acceptsWrites noFault /\
  fst (move noFault (mkMoveConfig (Some 11) (Some true) None) parked)
  = Resolved "Success".
Proof.
  assert (Hacc : acceptsWrites noFault) by (intros lg l v; reflexivity).
  split; [exact Hacc|].
  apply (move_resolves_on_eight_rows noFault 11 (Some true) None parked Hacc).
  - cbn. lia.
  - cbn. lia.
  - reflexivity.
Defined.

(** ** Edge cases of [move] *)

(** X11: when the counter is not a row index of the step sequence and
    the driver has at least one line, a [move] of one step or more is
    rejected with a [TypeError] in its first advance: nothing is written,
    no timer is armed, the counter is not moved and [cleanup] does not
    run. *)
Theorem move_off_table_rejects (p : Provider) (n : Z) dir ms (h : Heap) :
  gpioLines (this h) <> [] ->
  jsIndex (stepSequence (this h)) (motorStepCounter (this h)) = None ->
  1 <= n < 2 ^ 32 ->
  move p (mkMoveConfig (Some n) dir ms) h
  = (Rejected (TypeError "Cannot read properties of undefined"), h).
Proof.
  intros Hl Hrow Hn. unfold move. cbn [stepCount orDefault].
  rewrite arrayFromLength_small by lia.
  destruct (Z.to_nat n) as [|k] eqn:Hk; [lia|].
  cbn [async_eachSeries]. unfold advance, bind, writeRow, async_each.
  destruct (gpioLines (this h)) as [|l rest] eqn:Hg; [contradiction|].
  cbn [List.length seq forEach]. unfold bind, writePin at 1.
  rewrite Hg. cbn [nth_error]. rewrite Hrow. reflexivity.
Qed.

Lemma move_off_table_rejects_witness :
  gpioLines (this offTable) <> [] /\
  move noFault (steps 3 false) offTable
  = (Rejected (TypeError "Cannot read properties of undefined"), offTable).
Proof.
  split; [discriminate|].
  apply (move_off_table_rejects noFault 3 (Some false) None offTable).
  - discriminate.
  - reflexivity.
  - split; [lia | reflexivity].
Defined.

Lemma setCounter_same d : setCounter d (motorStepCounter d) = d.
Proof. destruct d; reflexivity. Qed.




(** ** Resolved moves *)

(** X13: a [move] that resolves leaves the lines de-energized: 0 is the
    last value written to every line of the driver. *)
Theorem resolved_move_deenergizes (p : Provider) (mc : MoveConfig) (h : Heap)
    (r : string) :
  fst (move p mc h) = Resolved r ->
  r = "Success" /\
  forall l, In l (gpioLines (this h)) ->
            lastWritten l (log (snd (move p mc h))) = Some (VNum 0).
Proof.
  intros Hr. split.
  - revert Hr. unfold move.
    destruct (arrayFromLength (orDefault (stepCount mc) 4096)) as [n|e];
      [|discriminate].
    generalize Executor as fr. generalize h.
    induction n as [|n IH]; intros h0 fr; cbn [async_eachSeries].
    + destruct (cleanup p h0) as [[[]|e] h1]; cbn; [congruence|].
      destruct fr; discriminate.
    + destruct (advance p _ _ h0) as [[[]|e] h1]; cbn; [apply IH|].
      destruct fr; discriminate.
  - apply (move_resolved_lines_zero p mc h r Hr).
Qed.

Lemma resolved_move_deenergizes_witness :
  fst (move noFault (steps 5 false) parked) = Resolved "Success" /\
  lastWritten line22 (log (snd (move noFault (steps 5 false) parked)))
  = Some (VNum 0).
Proof.
  split; [reflexivity|].
  apply (proj2 (resolved_move_deenergizes noFault (steps 5 false) parked
                  "Success" eq_refl)).
  cbn. auto.
Defined.

(** X14: from a counter in [0, 8), a [move] of [n] steps that resolves
    leaves the counter at [(c + n) mod 8] forward and [(c - n) mod 8]
    backward, whatever the length of the step sequence. *)
Theorem resolved_move_counter_law (p : Provider) (n : Z) (dir : bool) ms
    (h : Heap) (r : string) :
  0 <= n < 2 ^ 32 ->
  0 <= motorStepCounter (this h) < 8 ->
  fst (move p (mkMoveConfig (Some n) (Some dir) ms) h) = Resolved r ->
  motorStepCounter (this (snd (move p (mkMoveConfig (Some n) (Some dir) ms) h)))
  = if dir
    then (motorStepCounter (this h) - n) mod 8
    else (motorStepCounter (this h) + n) mod 8.
Proof.
  apply move_resolved_counter_mod8.
Qed.

Lemma resolved_move_counter_law_witness :
  0 <= 13 < 2 ^ 32 /\
  motorStepCounter (this (snd (move noFault (steps 13 true) parked)))
  = (3 - 13) mod 8.
Proof.
  split; [split; [lia | reflexivity]|].
  apply (resolved_move_counter_law noFault 13 true None parked "Success").
  - split; [lia | reflexivity].
  - cbn. lia.
  - reflexivity.
Defined.

(** X15: steps forward are undone by as many steps backward: when both
    moves resolve, the counter is back where it was. *)
Theorem forward_then_backward_restores_counter (p : Provider) (n : Z)
    ms1 ms2 (h : Heap) (r1 r2 : string) :
  0 <= n < 2 ^ 32 ->
  0 <= motorStepCounter (this h) < 8 ->
  fst (move p (mkMoveConfig (Some n) (Some false) ms1) h) = Resolved r1 ->
  fst (move p (mkMoveConfig (Some n) (Some true) ms2)
         (snd (move p (mkMoveConfig (Some n) (Some false) ms1) h)))
  = Resolved r2 ->
  motorStepCounter
    (this (snd (move p (mkMoveConfig (Some n) (Some true) ms2)
                  (snd (move p (mkMoveConfig (Some n) (Some false) ms1) h)))))
  = motorStepCounter (this h).
Proof.
  intros Hn Hc H1 H2.
  pose proof (move_resolved_counter_mod8 p n false ms1 h r1 Hn Hc H1) as E1.
  cbv beta iota in E1.
  assert (Hc1 : 0 <= motorStepCounter
                       (this (snd (move p (mkMoveConfig (Some n) (Some false) ms1) h)))
                < 8).
  { rewrite E1. apply Z.mod_pos_bound. lia. }
  rewrite (move_resolved_counter_mod8 p n true ms2 _ r2 Hn Hc1 H2).
  cbv beta iota. rewrite E1, Zminus_mod_idemp_l.
  replace (motorStepCounter (this h) + n - n) with (motorStepCounter (this h))
    by lia.
  apply Z.mod_small. exact Hc.
Qed.

Lemma forward_then_backward_restores_counter_witness :
  0 <= 5 < 2 ^ 32 /\
  motorStepCounter
    (this (snd (move noFault (steps 5 true)
                  (snd (move noFault (steps 5 false) parked)))))
  = motorStepCounter (this parked).
Proof.
  split; [split; [lia | reflexivity]|].
  apply (forward_then_backward_restores_counter noFault 5 None None parked
           "Success" "Success").
  - split; [lia | reflexivity].
  - cbn. lia.
  - reflexivity.
  - reflexivity.
Defined.

(** X16: the counter persists between calls: two moves in the same
    direction that both resolve leave it where [n + m] steps in that
    direction lead. *)
Theorem successive_moves_add_up (p : Provider) (n m : Z) (dir : bool)
    ms1 ms2 (h : Heap) (r1 r2 : string) :
  0 <= n < 2 ^ 32 ->
  0 <= m < 2 ^ 32 ->
  0 <= motorStepCounter (this h) < 8 ->
  fst (move p (mkMoveConfig (Some n) (Some dir) ms1) h) = Resolved r1 ->
  fst (move p (mkMoveConfig (Some m) (Some dir) ms2)
         (snd (move p (mkMoveConfig (Some n) (Some dir) ms1) h)))
  = Resolved r2 ->
  motorStepCounter
    (this (snd (move p (mkMoveConfig (Some m) (Some dir) ms2)
                  (snd (move p (mkMoveConfig (Some n) (Some dir) ms1) h)))))
  = if dir
    then (motorStepCounter (this h) - (n + m)) mod 8
    else (motorStepCounter (this h) + (n + m)) mod 8.
Proof.
  intros Hn Hm Hc H1 H2.
  pose proof (move_resolved_counter_mod8 p n dir ms1 h r1 Hn Hc H1) as E1.
  assert (Hc1 : 0 <= motorStepCounter
                       (this (snd (move p (mkMoveConfig (Some n) (Some dir) ms1) h)))
                < 8).
  { rewrite E1. destruct dir; apply Z.mod_pos_bound; lia. }
  rewrite (move_resolved_counter_mod8 p m dir ms2 _ r2 Hm Hc1 H2).
  rewrite E1. destruct dir.
  - rewrite Zminus_mod_idemp_l. f_equal. lia.
  - rewrite Zplus_mod_idemp_l. f_equal. lia.
Qed.

Lemma successive_moves_add_up_witness :
  0 <= 3 < 2 ^ 32 /\
  motorStepCounter
    (this (snd (move noFault (steps 4 false)
                  (snd (move noFault (steps 3 false) parked)))))
  = (3 + (3 + 4)) mod 8.
Proof.
  split; [split; [lia | reflexivity]|].
  apply (successive_moves_add_up noFault 3 4 false None None parked
           "Success" "Success").
  - split; [lia | reflexivity].
  - split; [lia | reflexivity].
  - cbn. lia.
  - reflexivity.
  - reflexivity.
Defined.

(** ** What a move writes *)

Lemma flat_map_seq_shift {B} (f : nat -> list B) :
  forall n s, flat_map f (seq (S s) n) = flat_map (fun j => f (S j)) (seq s n).
Proof.
  induction n as [|n IH]; intros s; [reflexivity|].
  cbn [seq flat_map]. rewrite IH. reflexivity.
Qed.

Lemma rowIndexAt_0 dir c : 0 <= c < 8 -> rowIndexAt dir c 0 = c.
Proof.
  intros Hc. unfold rowIndexAt. cbn [Z.of_nat].
  destruct dir; [rewrite Z.sub_0_r | rewrite Z.add_0_r]; apply Z.mod_small; lia.
Qed.

Lemma rowIndexAt_S dir c j :
  0 <= c < 8 -> rowIndexAt dir c (S j) = rowIndexAt dir (nextCounter dir c) j.
Proof.
  intros Hc. unfold rowIndexAt. destruct dir.
  - rewrite nextCounter_backward by lia.
    rewrite Zminus_mod_idemp_l. f_equal. lia.
  - rewrite nextCounter_forward by lia.
    rewrite Zplus_mod_idemp_l. f_equal. lia.
Qed.

Lemma rowIndexAt_iter dir c n :
  0 <= c < 8 -> Nat.iter n (nextCounter dir) c = rowIndexAt dir c n.
Proof.
  intros Hc. unfold rowIndexAt. destruct dir.
  - apply iter_nextCounter_backward. exact Hc.
  - apply iter_nextCounter_forward. exact Hc.
Qed.

Lemma series_trace (p : Provider) (Hacc : acceptsWrites p) dir ms (ok : string) :
  forall n fr h,
    (8 <= List.length (stepSequence (this h)))%nat ->
    0 <= motorStepCounter (this h) < 8 ->
    async_eachSeries n fr (advance p dir ms) (cleanup p) ok h
    = (Resolved ok,
       mkHeap
         (setCounter (this h) (rowIndexAt dir (motorStepCounter (this h)) n))
         (log h ++ moveTrace (gpioLines (this h)) (stepSequence (this h))
                     dir ms (motorStepCounter (this h)) n)).
Proof.
  induction n as [|n IH]; intros fr h Hlen Hc; cbn [async_eachSeries].
  - pose proof (cleanup_accepts p Hacc h) as Hk.
    pose proof (cleanup_completes p h Hk) as Hs.
    destruct (cleanup p h) as [[[]|e] h1]; [|discriminate Hk].
    cbn in Hs. subst h1. unfold moveTrace. cbn [seq flat_map app].
    rewrite rowIndexAt_0, setCounter_same by exact Hc. reflexivity.
  - destruct (jsIndex_in_table (stepSequence (this h))
                (motorStepCounter (this h))) as [row Hrow]; [lia|].
    unfold advance, bind. rewrite (writeRow_accepts p Hacc h row Hrow).
    unfold stepCounter, setTimeout. cbn [this log].
    rewrite IH; cbn [this log setCounter chip pins gpioLines stepSequence
                       motorStepCounter];
      [| exact Hlen | apply nextCounter_range; exact Hc].
    rewrite <- rowIndexAt_S by exact Hc.
    unfold moveTrace. cbn [seq flat_map].
    rewrite flat_map_seq_shift.
    rewrite (flat_map_ext
               (fun j => rowWrites (gpioLines (this h))
                           (rowAt (stepSequence (this h))
                              (rowIndexAt dir (motorStepCounter (this h)) (S j)))
                         ++ [SetTimeout ms])
               (fun j => rowWrites (gpioLines (this h))
                           (rowAt (stepSequence (this h))
                              (rowIndexAt dir
                                 (nextCounter dir (motorStepCounter (this h))) j))
                         ++ [SetTimeout ms]))
      by (intros j; rewrite rowIndexAt_S by exact Hc; reflexivity).
    rewrite rowIndexAt_0 by exact Hc.
    unfold rowAt at 2. rewrite Hrow. cbn [orDefault].
    rewrite <- !app_assoc. reflexivity.
Qed.

(** X17: on a table of at least eight rows, from a counter [c] in
    [0, 8) and with a provider that accepts every write, a [move] of [n]
    steps reads the table cyclically: advance [j] writes row
    [(c + j) mod 8] (backward: [(c - j) mod 8]), column [i] to line [i],
    and arms one timer; then every line is written 0, the promise
    resolves and the counter is [(c + n) mod 8] (backward:
    [(c - n) mod 8]). *)
Theorem move_drives_rows_cyclically (p : Provider) (n : Z) (dir : bool)
    (ms : Z) (h : Heap) :
  acceptsWrites p ->
  (8 <= List.length (stepSequence (this h)))%nat ->
  0 <= motorStepCounter (this h) < 8 ->
  0 <= n < 2 ^ 32 ->
  move p (mkMoveConfig (Some n) (Some dir) (Some ms)) h
  = (Resolved "Success",
     mkHeap
       (setCounter (this h)
          (rowIndexAt dir (motorStepCounter (this h)) (Z.to_nat n)))
       (log h ++ moveTrace (gpioLines (this h)) (stepSequence (this h))
                   dir ms (motorStepCounter (this h)) (Z.to_nat n))).
Proof.
  intros Hacc Hlen Hc Hn. unfold move.
  cbn [stepCount direction stepSleep orDefault].
  rewrite arrayFromLength_small by exact Hn.
  apply series_trace; assumption.
Qed.

Lemma move_drives_rows_cyclically_witness :
  acceptsWrites noFault /\
  move noFault (mkMoveConfig (Some 2) (Some true) (Some 0)) parked
  = (Resolved "Success",
     mkHeap (defaultDriver 1)
       (advanceLog (gpioLines (defaultDriver 0)) [0; 1; 0; 0] 0
        ++ advanceLog (gpioLines (defaultDriver 0)) [1; 1; 0; 0] 0
        ++ zeroWrites (gpioLines (defaultDriver 0)))).
Proof.
  assert (Hacc : acceptsWrites noFault) by (intros lg l v; reflexivity).
  split; [exact Hacc|].
  apply (move_drives_rows_cyclically noFault 2 true 0 parked Hacc).
  - cbn. lia.
  - cbn. lia.
  - split; [lia | reflexivity].
Defined.

(** ** The blinds controller of the README *)

Section Blinds.

Variable p : Provider.
Hypothesis Hacc : acceptsWrites p.




End Blinds.


